(** * A first-fit [sbrk] allocator: model and specification

    Shallow embedding of [malloc.c]: the block list threaded through the
    program's data segment, the four public operations
    ([allocate_memory], [zero_allocate], [release_memory],
    [reallocate_memory]), the two helpers they are built from
    ([locate_free_block], [extend_memory]) and the free-standing
    [simple_malloc].

    Conventions of the embedding (LP64):
    - [size_t] values are integers in [[0, 2^64)]; every [size_t]
      computation of the source is followed by an explicit [wrap];
    - addresses are integers, [NULL] is [0] and [(void * )-1] is [2^64-1];
    - block headers live in a finite map from the address of the header to
      its four fields, payload bytes in a finite map from address to byte
      (an address the map does not know holds an indeterminate byte);
    - a call either returns a value and a new heap, trips an [assert],
      has undefined behaviour, or loops for ever.

    Headers and payload bytes are kept in two maps, so a header is a
    record of its own and a byte store never reaches it.  This is what the
    C program sees as long as the blocks lie in the data segment and do not
    overlap, which is [heap_wf].  The stores that could break this shape are
    undefined in the embedding: a new header must lie between the start of
    the heap and the break and meet no other block, and [memset] must stay
    in the data segment.  [perform_returns] and [run_wf] show that calls
    whose growth request does not wrap round keep the heap well formed. *)

From stdpp Require Import gmap list sorting.
From Stdlib Require Import ZArith Lia.
From Stdlib Require Strings.Byte.

Local Open Scope Z_scope.

(** ** Machine constants *)

Definition WORD : Z := 64.
Definition SIZE_MOD : Z := 2 ^ WORD.
Definition INTPTR_MAX : Z := 2 ^ (WORD - 1) - 1.

(** [size_t] arithmetic is modulo [2^64]. *)
Definition wrap (z : Z) : Z := z mod SIZE_MOD.

(** Conversion of a [size_t] to the [intptr_t] parameter of [sbrk]. *)
Definition to_intptr (z : Z) : Z :=
  if z <=? INTPTR_MAX then z else z - SIZE_MOD.

Definition NULL : Z := 0.

(** The failure value of [sbrk], [(void * )-1]. *)
Definition SBRK_FAILED : Z := SIZE_MOD - 1.

(** [sizeof(struct mem_block)]: an 8-byte size, an 8-byte pointer, two
    4-byte ints. *)
Definition BLOCK_SIZE : Z := 24.

(** The three values written to [debug_flag]. *)
Definition TAG_EXTENDED : Z := 0x12345678.
Definition TAG_REUSED : Z := 0x77777777.
Definition TAG_FREED : Z := 0x55555555.

(** ** Data model *)

(** [struct mem_block]. *)
Record mem_block : Type := MemBlock {
  blk_size : Z;
  blk_next : Z;
  blk_free : Z;
  blk_debug_flag : Z
}.

(** The process: the limits the system puts on the program break, the break
    itself, the global [base], the headers and the payload bytes. *)
Record heap : Type := Heap {
  brk_lo : Z;
  brk_hi : Z;
  brk : Z;
  base : Z;
  blocks : gmap Z mem_block;
  bytes : gmap Z Byte.byte
}.

Definition set_brk (v : Z) (st : heap) : heap :=
  Heap (brk_lo st) (brk_hi st) v (base st) (blocks st) (bytes st).
Definition set_base (v : Z) (st : heap) : heap :=
  Heap (brk_lo st) (brk_hi st) (brk st) v (blocks st) (bytes st).
Definition set_blocks (h : gmap Z mem_block) (st : heap) : heap :=
  Heap (brk_lo st) (brk_hi st) (brk st) (base st) h (bytes st).
Definition set_bytes (m : gmap Z Byte.byte) (st : heap) : heap :=
  Heap (brk_lo st) (brk_hi st) (brk st) (base st) (blocks st) m.

(** ** Outcomes and the state monad of the embedding *)

Inductive outcome (A : Type) : Type :=
| Done (a : A) (st : heap)   (* normal return *)
| AssertFail                 (* an [assert] failed: the process aborts *)
| Fault                      (* undefined behaviour *)
| Diverge.                   (* the call does not return *)
Arguments Done {A} a st.
Arguments AssertFail {A}.
Arguments Fault {A}.
Arguments Diverge {A}.

Definition M (A : Type) : Type := heap -> outcome A.

Definition ret {A} (a : A) : M A := fun st => Done a st.

Definition bind {A B} (m : M A) (f : A -> M B) : M B :=
  fun st =>
    match m st with
    | Done a st' => f a st'
    | AssertFail => AssertFail
    | Fault => Fault
    | Diverge => Diverge
    end.

Notation "x <- m ;; k" := (bind m (fun x => k))
  (at level 100, m at next level, right associativity, only parsing).
Notation "m ;;; k" := (bind m (fun _ => k))
  (at level 100, right associativity, only parsing).

Definition assert (c : bool) : M unit :=
  fun st => if c then Done tt st else AssertFail.

Definition get_base : M Z := fun st => Done (base st) st.
Definition put_base (v : Z) : M unit := fun st => Done tt (set_base v st).

(** Reading a header through a pointer that addresses none is undefined. *)
Definition load_block (a : Z) : M mem_block :=
  fun st =>
    match blocks st !! a with
    | Some b => Done b st
    | None => Fault
    end.

(** The [n] bytes at [a] lie in the data segment: between the start of the
    heap and the program break. *)
Definition mapped (st : heap) (a n : Z) : bool :=
  (brk_lo st <=? a) && (a + n <=? brk st).

(** No block of [h], header and payload, meets the [BLOCK_SIZE] bytes at
    [a]. *)
Definition clear_of_blocks (h : gmap Z mem_block) (a : Z) : bool :=
  forallb (fun xb => (fst xb + BLOCK_SIZE + blk_size (snd xb) <=? a)
                     || (a + BLOCK_SIZE <=? fst xb))
          (map_to_list h).

(** Writing the fields of the header at [a].  Where there is a header, its
    fields are rewritten.  Where there is none the stores make one, and
    they are undefined unless the [BLOCK_SIZE] bytes at [a] lie in the data
    segment and meet no block: a header written past the break, or over
    another header or a payload, is not a store the embedding lets pass. *)
Definition store_block (a : Z) (b : mem_block) : M unit :=
  fun st =>
    match blocks st !! a with
    | Some _ => Done tt (set_blocks (<[a := b]> (blocks st)) st)
    | None =>
        if mapped st a BLOCK_SIZE && clear_of_blocks (blocks st) a
        then Done tt (set_blocks (<[a := b]> (blocks st)) st)
        else Fault
    end.

(** ** The C library functions the allocator calls *)

(** [sbrk], as the C library implements it over the [brk] system call.
    An increment of zero returns the break.  Otherwise the library computes
    the new break, fails with [(void * )-1] when the address wraps round,
    and asks the kernel for it.  The kernel grants a break between
    [brk_lo], where the heap starts, and [brk_hi], and otherwise leaves the
    break where it is.  The library reports a failure only when the break
    it gets is below the one it asked for: a growth the kernel refuses
    returns [(void * )-1], a decrease the kernel refuses returns the old
    break as if it had succeeded, the break unmoved. *)
Definition sbrk (increment : Z) : M Z :=
  fun st =>
    let new_brk := brk st + increment in
    if increment =? 0 then Done (brk st) st
    else if (new_brk <? 0) || (SIZE_MOD <=? new_brk) then Done SBRK_FAILED st
    else if brk_hi st <? new_brk then Done SBRK_FAILED st
    else if new_brk <? brk_lo st then Done (brk st) st
    else Done (brk st) (set_brk new_brk st).

Fixpoint fill_bytes (m : gmap Z Byte.byte) (dst : Z) (c : Byte.byte) (n : nat)
  : gmap Z Byte.byte :=
  match n with
  | O => m
  | S k => fill_bytes (<[dst := c]> m) (dst + 1) c k
  end.

(** [memset]: undefined unless the [n] bytes it fills lie in the data
    segment. *)
Definition memset (dst : Z) (c : Byte.byte) (n : Z) : M unit :=
  fun st =>
    if (0 <? n) && negb (mapped st dst n) then Fault
    else Done tt (set_bytes (fill_bytes (bytes st) dst c (Z.to_nat n)) st).

Fixpoint copy_bytes (m : gmap Z Byte.byte) (dst src : Z) (n : nat)
  : gmap Z Byte.byte :=
  match n with
  | O => m
  | S k => copy_bytes (partial_alter (fun _ => m !! src) dst m) (dst + 1) (src + 1) k
  end.

Definition overlapping (dst src n : Z) : bool :=
  (0 <? n) && (dst <? src + n) && (src <? dst + n).

(** [memcpy]: a forward byte copy; undefined when the two regions overlap.
    Its one caller, [reallocate_memory], copies between two blocks of the
    heap, both in the data segment ([reallocate_memory_copy_mapped]). *)
Definition memcpy (dst src n : Z) : M unit :=
  fun st =>
    if overlapping dst src n then Fault
    else Done tt (set_bytes (copy_bytes (bytes st) dst src (Z.to_nat n)) st).

(** ** The allocator *)

(** The test of the search loop: [current->free && current->size >= size]. *)
Definition fits (size : Z) (b : mem_block) : bool :=
  negb (blk_free b =? 0) && (size <=? blk_size b).

(** The loop of [locate_free_block]; [n] bounds the number of iterations.
    The result is the final [current] and the final [*last]. *)
Fixpoint locate_loop (n : nat) (h : gmap Z mem_block) (size current last : Z)
  : option (option (Z * Z)) :=
  if current =? NULL then Some (Some (current, last))
  else
    match h !! current with
    | None => Some None
    | Some b =>
        if fits size b then Some (Some (current, last))
        else
          match n with
          | O => None
          | S k => locate_loop k h size (blk_next b) current
          end
    end.

(** [locate_free_block(&last, size)].  A list that is not circular has at
    most as many blocks as there are headers, so the bound below is only
    reached by a search that runs round a cycle for ever. *)
Definition locate_free_block (last size : Z) : M (Z * Z) :=
  fun st =>
    match locate_loop (stdpp.base.size (blocks st)) (blocks st) size (base st) last with
    | Some (Some r) => Done r st
    | Some None => Fault
    | None => Diverge
    end.

Definition set_next (a target : Z) : M unit :=
  b <- load_block a ;;
  store_block a (MemBlock (blk_size b) target (blk_free b) (blk_debug_flag b)).

(** [extend_memory(last, size)]. *)
Definition extend_memory (last size : Z) : M Z :=
  block <- sbrk 0 ;;
  new_break <- sbrk (to_intptr (wrap (size + BLOCK_SIZE))) ;;
  if new_break =? SBRK_FAILED then ret NULL
  else
    assert (block =? new_break) ;;;
    (if last =? NULL then ret tt else set_next last block) ;;;
    store_block block (MemBlock size NULL 0 TAG_EXTENDED) ;;;
    ret block.

Definition mark_used (a : Z) : M unit :=
  b <- load_block a ;;
  store_block a (MemBlock (blk_size b) (blk_next b) 0 TAG_REUSED).

(** [allocate_memory(size)]. *)
Definition allocate_memory (size : Z) : M Z :=
  if size <=? 0 then ret NULL
  else
    b <- get_base ;;
    if b =? NULL then
      block <- extend_memory NULL size ;;
      if block =? NULL then ret NULL
      else put_base block ;;; ret (block + BLOCK_SIZE)
    else
      r <- locate_free_block b size ;;
      let block := fst r in
      let last := snd r in
      if block =? NULL then
        block <- extend_memory last size ;;
        if block =? NULL then ret NULL
        else ret (block + BLOCK_SIZE)
      else
        mark_used block ;;; ret (block + BLOCK_SIZE).

(** [zero_allocate(elements, element_size)]. *)
Definition zero_allocate (elements element_size : Z) : M Z :=
  let total_size := wrap (elements * element_size) in
  ptr <- allocate_memory total_size ;;
  if ptr =? NULL then ret ptr
  else memset ptr Byte.x00 total_size ;;; ret ptr.

(** [retrieve_block_ptr(ptr)]. *)
Definition retrieve_block_ptr (ptr : Z) : Z := ptr - BLOCK_SIZE.

(** [release_memory(ptr)]. *)
Definition release_memory (ptr : Z) : M unit :=
  if ptr =? NULL then ret tt
  else
    let block_ptr := retrieve_block_ptr ptr in
    b <- load_block block_ptr ;;
    assert (blk_free b =? 0) ;;;
    assert ((blk_debug_flag b =? TAG_REUSED) || (blk_debug_flag b =? TAG_EXTENDED)) ;;;
    store_block block_ptr (MemBlock (blk_size b) (blk_next b) 1 TAG_FREED).

(** [reallocate_memory(ptr, size)].  The size handed to [memcpy] is read
    from the old header after the inner allocation, as in the source. *)
Definition reallocate_memory (ptr size : Z) : M Z :=
  if ptr =? NULL then allocate_memory size
  else
    let block_ptr := retrieve_block_ptr ptr in
    b <- load_block block_ptr ;;
    if size <=? blk_size b then ret ptr
    else
      new_ptr <- allocate_memory size ;;
      if new_ptr =? NULL then ret NULL
      else
        b' <- load_block block_ptr ;;
        memcpy new_ptr ptr (blk_size b') ;;;
        release_memory ptr ;;;
        ret new_ptr.

(** [simple_malloc(size)]: the allocator without a free list.  The
    [size_t] argument is converted to the [intptr_t] parameter of [sbrk]. *)
Definition simple_malloc (size : Z) : M Z :=
  current_break <- sbrk 0 ;;
  new_break <- sbrk (to_intptr size) ;;
  if new_break =? SBRK_FAILED then ret NULL
  else
    assert (current_break =? new_break) ;;;
    ret current_break.

(** ** Specification vocabulary *)

(** [chain h a l]: following [next] from [a] visits exactly the blocks of
    [l], in this order, and then reaches [NULL]. *)
Fixpoint chain (h : gmap Z mem_block) (a : Z) (l : list Z) : Prop :=
  match l with
  | [] => a = NULL
  | x :: l' =>
      a = x /\ x <> NULL /\
      exists b, h !! x = Some b /\ chain h (blk_next b) l'
  end.

(** The search test at an address. *)
Definition fits_at (h : gmap Z mem_block) (size a : Z) : bool :=
  match h !! a with
  | Some b => fits size b
  | None => false
  end.

(** The search on the list of addresses: the block found ([NULL] if none)
    and the block visited just before the search stopped. *)
Fixpoint first_fit (h : gmap Z mem_block) (size : Z) (l : list Z) (last : Z)
  : Z * Z :=
  match l with
  | [] => (NULL, last)
  | a :: l' => if fits_at h size a then (a, last) else first_fit h size l' a
  end.

(** The two values of [debug_flag] of a block in use. *)
Definition in_use_tag (t : Z) : Prop := t = TAG_EXTENDED \/ t = TAG_REUSED.

(** [ptr] is a user pointer of a block in use. *)
Definition live_block (st : heap) (ptr : Z) : Prop :=
  exists b, blocks st !! retrieve_block_ptr ptr = Some b /\
            blk_free b = 0 /\ in_use_tag (blk_debug_flag b).

(** The increment [extend_memory] hands to [sbrk] for a payload of [size]
    bytes. *)
Definition growth (size : Z) : Z := to_intptr (wrap (size + BLOCK_SIZE)).

(** Does [sbrk] report a failure for this increment? *)
Definition sbrk_refuses (st : heap) (increment : Z) : bool :=
  negb (increment =? 0) &&
  ((brk st + increment <? 0) || (SIZE_MOD <=? brk st + increment)
   || (brk_hi st <? brk st + increment)).

(** Does [sbrk] report a failure to [extend_memory]? *)
Definition grow_rejected (st : heap) (size : Z) : bool :=
  sbrk_refuses st (growth size).

(** The [n] bytes at [ptr] lie in the data segment, past a header. *)
Definition in_segment (st : heap) (ptr n : Z) : Prop :=
  brk_lo st + BLOCK_SIZE <= ptr /\ ptr + n <= brk st.

(** First address past the payload of the block [b] at [a]. *)
Definition block_end (a : Z) (b : mem_block) : Z := a + BLOCK_SIZE + blk_size b.

(** The break is inside its limits, which are valid addresses. *)
Definition limits_ok (st : heap) : Prop :=
  0 < brk_lo st /\ brk_lo st <= brk st /\ brk st <= brk_hi st /\
  brk_hi st < SBRK_FAILED.

(** Well-formed heaps: the break is inside its limits, the list from [base]
    ends, and the blocks lie in the data segment one after the other. *)
Record heap_wf (st : heap) : Prop := HeapWf {
  wf_limits : limits_ok st;
  wf_chain : exists l, chain (blocks st) (base st) l;
  wf_inside : forall a b, blocks st !! a = Some b ->
              brk_lo st <= a /\ 0 < blk_size b /\ block_end a b <= brk st;
  wf_apart : forall a1 b1 a2 b2,
              blocks st !! a1 = Some b1 -> blocks st !! a2 = Some b2 ->
              a1 < a2 -> block_end a1 b1 <= a2
}.

(** The heap of a process that has not allocated yet. *)
Definition empty_heap (lo hi : Z) : heap := Heap lo hi lo NULL ∅ ∅.

(** [last->next = block], when [last] is not [NULL]. *)
Definition link (last block : Z) (h : gmap Z mem_block) : gmap Z mem_block :=
  if last =? NULL then h
  else match h !! last with
       | Some b => <[last := MemBlock (blk_size b) block (blk_free b) (blk_debug_flag b)]> h
       | None => h
       end.

(** The heap after a successful [extend_memory(last, size)]. *)
Definition grown (st : heap) (last size : Z) : heap :=
  Heap (brk_lo st) (brk_hi st) (brk st + growth size) (base st)
       (<[brk st := MemBlock size NULL 0 TAG_EXTENDED]> (link last (brk st) (blocks st)))
       (bytes st).

(** The heap after the search picked the free block [b] at [a]. *)
Definition reused (st : heap) (a : Z) (b : mem_block) : heap :=
  set_blocks (<[a := MemBlock (blk_size b) (blk_next b) 0 TAG_REUSED]> (blocks st)) st.

(** The heap after [allocate_memory] grew it for a payload of [size] bytes,
    the list being [l]. *)
Definition appended (st : heap) (l : list Z) (size : Z) : heap :=
  set_base (if base st =? NULL then brk st else base st)
           (grown st (default (base st) (last l)) size).

(** What [allocate_memory] does on a heap whose list is [l], for a
    non-zero size. *)
Definition allocated (st : heap) (l : list Z) (size : Z) : outcome Z :=
  let r := first_fit (blocks st) size l (base st) in
  if fst r =? NULL then
    if grow_rejected st size then Done NULL st
    else if BLOCK_SIZE <=? growth size
    then Done (brk st + BLOCK_SIZE)
              (set_base (if base st =? NULL then brk st else base st)
                        (grown st (snd r) size))
    else Fault
  else
    match blocks st !! fst r with
    | Some b => Done (fst r + BLOCK_SIZE) (reused st (fst r) b)
    | None => Fault
    end.

(** The heap after [release_memory(ptr)] freed the block [b]. *)
Definition released (st : heap) (ptr : Z) (b : mem_block) : heap :=
  set_blocks (<[retrieve_block_ptr ptr := MemBlock (blk_size b) (blk_next b) 1 TAG_FREED]>
                (blocks st)) st.

Definition in_use_tagb (t : Z) : bool := (t =? TAG_REUSED) || (t =? TAG_EXTENDED).

(** [taken size h a h']: the headers [h'] are the headers [h] after the
    allocator took the block at [a] for a request of [size] bytes, either
    a free block that fits or a new block at the break. *)
Definition taken (size : Z) (h : gmap Z mem_block) (a : Z) (h' : gmap Z mem_block)
  : Prop :=
  (exists b, h !! a = Some b /\ fits size b = true /\
             h' = <[a := MemBlock (blk_size b) (blk_next b) 0 TAG_REUSED]> h)
  \/ (exists last, h' = <[a := MemBlock size NULL 0 TAG_EXTENDED]> (link last a h)).

(** ** Programs that use the allocator *)

(** A call of one of the four public functions. *)
Inductive request : Type :=
| Allocate (size : Z)
| ZeroAllocate (elements element_size : Z)
| Reallocate (ptr size : Z)
| Release (ptr : Z).

(** The call, with its result ([NULL] for [release_memory], which returns
    nothing). *)
Definition perform (r : request) : M Z :=
  match r with
  | Allocate size => allocate_memory size
  | ZeroAllocate elements element_size => zero_allocate elements element_size
  | Reallocate ptr size => reallocate_memory ptr size
  | Release ptr => release_memory ptr ;;; ret NULL
  end.

(** The user pointers the program holds after the call returned [res]:
    those returned and not yet released. *)
Definition track (r : request) (res : Z) (live : gset Z) : gset Z :=
  match r with
  | Allocate _ | ZeroAllocate _ _ => if res =? NULL then live else {[res]} ∪ live
  | Reallocate ptr _ => if res =? NULL then live else {[res]} ∪ (live ∖ {[ptr]})
  | Release ptr => live ∖ {[ptr]}
  end.

(** A program passes to [release_memory] and [reallocate_memory] only
    [NULL] or a pointer it holds. *)
Definition request_ok (live : gset Z) (r : request) : bool :=
  match r with
  | Reallocate ptr _ | Release ptr => (ptr =? NULL) || bool_decide (ptr ∈ live)
  | _ => true
  end.

(** A sequence of calls; passing any other pointer is undefined. *)
Fixpoint run (rs : list request) (live : gset Z) : M (gset Z) :=
  match rs with
  | [] => ret live
  | r :: rs' =>
      if request_ok live r
      then res <- perform r ;; run rs' (track r res live)
      else fun _ => Fault
  end.

Definition all_live (st : heap) (live : gset Z) : Prop :=
  forall p, p ∈ live -> live_block st p.

(** The sizes for which the growth asked of [sbrk] does not wrap round. *)
Definition request_small (r : request) : Prop :=
  match r with
  | Allocate size | Reallocate _ size => size + BLOCK_SIZE <= INTPTR_MAX
  | ZeroAllocate elements element_size =>
      wrap (elements * element_size) + BLOCK_SIZE <= INTPTR_MAX
  | Release _ => True
  end.


(** [heap_extends st st' l']: from [st] to [st'] the limits of the break
    are the same, the break has not been lowered, every header is still at
    its address with its recorded size, and the list is the old list
    followed by [l'].  The blocks of [l'] are the headers [st'] has and
    [st] has not; they lie between the two breaks, in increasing order of
    address. *)
Definition heap_extends (st st' : heap) (l' : list Z) : Prop :=
  brk_lo st' = brk_lo st /\ brk_hi st' = brk_hi st /\ brk st <= brk st' /\
  (forall a b, blocks st !! a = Some b ->
     exists b', blocks st' !! a = Some b' /\ blk_size b' = blk_size b) /\
  (forall l, chain (blocks st) (base st) l ->
     chain (blocks st') (base st') (l ++ l')) /\
  Forall (fun x => brk st <= x < brk st') l' /\
  StronglySorted Z.lt l' /\
  dom (blocks st') = dom (blocks st) ∪ list_to_set l'.

(** ** Example heaps *)

(** Two blocks, of 10 and 20 bytes, the second one free and its payload
    still holding what the program wrote there. *)
Definition demo_heap : heap :=
  Heap 4096 8192 4174 4096
       (<[4096 := MemBlock 10 4130 0 TAG_EXTENDED]>
          {[4130 := MemBlock 20 NULL 1 TAG_FREED]})
       {[4154 := Byte.x48; 4155 := Byte.x69]}.

(** The same two blocks, both in use, in a process whose break may rise to
    [hi]. *)
Definition busy_heap (hi : Z) : heap :=
  Heap 4096 hi 4174 4096
       (<[4096 := MemBlock 10 4130 0 TAG_EXTENDED]>
          {[4130 := MemBlock 20 NULL 0 TAG_REUSED]})
       {[4120 := Byte.x48; 4121 := Byte.x69]}.

(** A heap with one free three-byte block whose payload the program filled
    with ones before it released the block. *)
Definition used_heap : heap :=
  Heap 4096 8192 4123 4096
       {[ 4096 := MemBlock 3 NULL 1 TAG_FREED ]}
       {[ 4120 := Byte.x01; 4121 := Byte.x01; 4122 := Byte.x01 ]}.

(** The list of a heap with two blocks, by evaluation. *)
Ltac two_blocks_chain :=
  simpl; split; [reflexivity|]; split; [by vm_compute|];
  eexists; split; [by vm_compute|];
  simpl; split; [reflexivity|]; split; [by vm_compute|];
  eexists; split; [by vm_compute|reflexivity].

(** The list of a concrete heap, by evaluation. *)
Ltac chain_by_evaluation :=
  repeat (cbn [chain]; split; [by vm_compute|];
          split; [by vm_compute|]; eexists; split; [by vm_compute|]);
  by vm_compute.

(** The limits of a concrete heap, by evaluation. *)
Ltac limits_by_evaluation :=
  unfold limits_ok; vm_compute; repeat split; first [reflexivity | discriminate].

(** ** Facts about the list of blocks *)

Lemma chain_deterministic h a l1 : forall l2 a',
  a = a' -> chain h a l1 -> chain h a' l2 -> l1 = l2.
Proof.
  revert a. induction l1 as [|x l1 IH]; intros a [|y l2] a' <-; simpl.
  - done.
  - intros -> (<- & Hy & _). done.
  - intros (-> & Hx & _) ->. done.
  - intros (-> & _ & b & Hb & Hc) (<- & _ & b' & Hb' & Hc').
    f_equal. rewrite Hb in Hb'. injection Hb' as <-. eauto.
Qed.

Lemma chain_app h l1 : forall a l2,
  chain h a (l1 ++ l2) ->
  exists a', chain h a' l2 /\
    (l1 = [] -> a' = a) /\
    (forall x, last l1 = Some x -> exists b, h !! x = Some b /\ blk_next b = a').
Proof.
  induction l1 as [|x l1 IH]; intros a l2; simpl.
  - intros Hc. exists a. split; [done|]. split; [done|]. intros x Hx. done.
  - intros (-> & Hx & b & Hb & Hc).
    destruct (IH _ _ Hc) as (a' & Hc' & Hnil & Hlast).
    exists a'. split; [done|]. split; [done|].
    intros y Hy. destruct l1 as [|z l1].
    + simpl in Hy. injection Hy as <-. exists b. split; [done|]. by rewrite Hnil.
    + rewrite last_cons_cons in Hy. eauto.
Qed.

Lemma chain_suffix h l1 a l2 :
  chain h a (l1 ++ l2) -> exists a', chain h a' l2.
Proof. intros Hc. destruct (chain_app _ _ _ _ Hc) as (a' & ? & _). eauto. Qed.

Lemma chain_elem_of h l : forall a x,
  chain h a l -> x ∈ l -> x <> NULL /\ is_Some (h !! x).
Proof.
  induction l as [|y l IH]; intros a x; simpl.
  - intros _ Hx. by apply elem_of_nil in Hx.
  - intros (-> & Hy & b & Hb & Hc) [->|Hx]%elem_of_cons; eauto.
Qed.

Lemma chain_NoDup h l : forall a, chain h a l -> NoDup l.
Proof.
  induction l as [|x l IH]; intros a; simpl.
  - intros _. constructor.
  - intros (-> & Hx & b & Hb & Hc). apply NoDup_cons. split; [|eauto].
    intros Hin. apply list_elem_of_split in Hin as (l1 & l2 & ->).
    destruct (chain_suffix _ _ _ _ Hc) as (a' & Hc').
    simpl in Hc'. destruct Hc' as (-> & _ & b' & Hb' & Hc').
    rewrite Hb in Hb'. injection Hb' as <-.
    pose proof (chain_deterministic _ _ _ _ _ eq_refl Hc Hc') as Heq.
    apply (f_equal length) in Heq. rewrite length_app in Heq. simpl in Heq. lia.
Qed.

Lemma chain_length h a l : chain h a l -> (length l <= stdpp.base.size h)%nat.
Proof.
  intros Hc. rewrite <- (size_dom (D := gset Z)).
  unfold stdpp.base.size at 1, set_size. simpl.
  apply submseteq_length, NoDup_submseteq; [by eapply chain_NoDup|].
  intros x Hx. apply elem_of_elements, elem_of_dom.
  by eapply chain_elem_of.
Qed.

Lemma chain_null h l : chain h NULL l -> l = [].
Proof. destruct l as [|x l]; [done|]. simpl. intros (<- & ? & _). done. Qed.

Lemma chain_not_null h a l : chain h a l -> NULL ∉ l.
Proof. intros Hc Hin. by destruct (chain_elem_of _ _ _ _ Hc Hin). Qed.

Lemma chain_last h a l x : chain h a l -> last l = Some x -> is_Some (h !! x).
Proof.
  intros Hc Hx. eapply chain_elem_of; [exact Hc|]. by eapply last_Some_elem_of.
Qed.

Lemma chain_ext h h' l : forall a,
  chain h a l ->
  (forall x b, x ∈ l -> h !! x = Some b ->
     exists b', h' !! x = Some b' /\ blk_next b' = blk_next b) ->
  chain h' a l.
Proof.
  induction l as [|x l IH]; intros a; simpl; [done|].
  intros (-> & Hx & b & Hb & Hc) Hext.
  destruct (Hext x b) as (b' & Hb' & Hnext); [by left|done|].
  split; [done|]. split; [done|]. exists b'. split; [done|].
  rewrite Hnext. apply IH; [done|]. intros y c Hy. apply Hext. by right.
Qed.

Lemma chain_snoc h x fresh l : forall a tl btl,
  chain h a l -> last l = Some tl -> h !! tl = Some btl ->
  x ∉ l -> x <> NULL -> blk_next fresh = NULL ->
  chain (<[x := fresh]>
           (<[tl := MemBlock (blk_size btl) x (blk_free btl) (blk_debug_flag btl)]> h))
        a (l ++ [x]).
Proof.
  induction l as [|y l IH]; intros a tl btl Hc Hlast Htl Hx Hnull Hfresh; [done|].
  pose proof (chain_NoDup _ _ _ Hc) as [Hy _]%NoDup_cons.
  simpl in Hc. destruct Hc as (-> & Hy0 & b & Hb & Hc).
  apply not_elem_of_cons in Hx as [Hxy Hx].
  destruct l as [|z l].
  - simpl in Hlast. injection Hlast as <-. simpl in Hc.
    rewrite Hb in Htl. injection Htl as <-.
    simpl. split; [done|]. split; [done|]. eexists. split.
    { rewrite lookup_insert_ne by done. apply lookup_insert_eq. }
    simpl. split; [done|]. split; [done|]. exists fresh.
    split; [apply lookup_insert_eq|done].
  - rewrite last_cons_cons in Hlast.
    assert (tl ∈ z :: l) as Hin by (by eapply last_Some_elem_of).
    assert (y <> tl) by (intros ->; done).
    cbn [app chain]. split; [done|]. split; [done|]. exists b. split.
    { rewrite !lookup_insert_ne by done. done. }
    by apply IH.
Qed.

(** ** The search *)

Lemma locate_loop_first_fit h size l : forall n current last,
  chain h current l -> (length l <= n)%nat ->
  locate_loop n h size current last = Some (Some (first_fit h size l last)).
Proof.
  induction l as [|x l IH]; intros n current last; simpl.
  - intros -> _. by destruct n.
  - intros (-> & Hx & b & Hb & Hc) Hn.
    destruct n as [|n]; [lia|]. simpl.
    apply Z.eqb_neq in Hx. rewrite Hx, Hb.
    unfold fits_at. rewrite Hb. destruct (fits size b); [done|].
    apply IH; [done|lia].
Qed.

Lemma locate_free_block_chain st l last size :
  chain (blocks st) (base st) l ->
  locate_free_block last size st = Done (first_fit (blocks st) size l last) st.
Proof.
  intros Hc. unfold locate_free_block.
  erewrite locate_loop_first_fit; eauto using chain_length.
Qed.

Lemma first_fit_split h size l : forall last0,
  (exists pre a post,
      l = pre ++ a :: post /\
      Forall (fun x => fits_at h size x = false) pre /\
      fits_at h size a = true /\
      first_fit h size l last0 = (a, default last0 (last pre)))
  \/ (Forall (fun x => fits_at h size x = false) l /\
      first_fit h size l last0 = (NULL, default last0 (last l))).
Proof.
  induction l as [|x l IH]; intros last0; simpl.
  - right. split; [constructor|done].
  - destruct (fits_at h size x) eqn:Hx.
    + left. exists [], x, l. repeat split; [constructor|done].
    + destruct (IH x) as [(pre & a & post & -> & Hpre & Ha & Heq)|[Hall Heq]].
      * left. exists (x :: pre), a, post.
        split; [done|]. split; [by constructor|]. split; [done|].
        rewrite Heq. f_equal. rewrite last_cons. by destruct (last pre).
      * right. split; [by constructor|].
        rewrite Heq. f_equal. rewrite last_cons. by destruct (last l).
Qed.

Lemma first_fit_null h size l last0 :
  NULL ∉ l ->
  fst (first_fit h size l last0) = NULL ->
  Forall (fun x => fits_at h size x = false) l /\
  first_fit h size l last0 = (NULL, default last0 (last l)).
Proof.
  intros Hl Hnull.
  destruct (first_fit_split h size l last0)
    as [(pre & a & post & -> & Hpre & Ha & Heq)|[Hall Heq]]; [|done].
  rewrite Heq in Hnull. simpl in Hnull. subst a.
  exfalso. apply Hl, elem_of_app. right. by left.
Qed.

Lemma first_fit_found h size l last0 :
  fst (first_fit h size l last0) <> NULL ->
  exists pre a post,
    l = pre ++ a :: post /\
    Forall (fun x => fits_at h size x = false) pre /\
    fits_at h size a = true /\
    first_fit h size l last0 = (a, default last0 (last pre)).
Proof.
  intros Hnull.
  destruct (first_fit_split h size l last0)
    as [(pre & a & post & -> & Hpre & Ha & Heq)|[Hall Heq]].
  - by exists pre, a, post.
  - by rewrite Heq in Hnull.
Qed.

Lemma first_fit_app h size pre a post : forall last0,
  Forall (fun x => fits_at h size x = false) pre ->
  fits_at h size a = true ->
  first_fit h size (pre ++ a :: post) last0 = (a, default last0 (last pre)).
Proof.
  induction pre as [|x pre IH]; intros last0 Hpre Ha; simpl.
  - by rewrite Ha.
  - apply Forall_cons in Hpre as [Hx Hpre]. rewrite Hx.
    rewrite IH by done. f_equal. rewrite last_cons. by destruct (last pre).
Qed.


(** ** Growing the heap *)

Lemma sbrk_zero st : sbrk 0 st = Done (brk st) st.
Proof. reflexivity. Qed.

Lemma heap_wf_limits st : heap_wf st -> limits_ok st.
Proof. intros H. exact (wf_limits _ H). Qed.

Lemma clear_of_blocks_spec h a :
  clear_of_blocks h a = true <->
  forall x b, h !! x = Some b -> block_end x b <= a \/ a + BLOCK_SIZE <= x.
Proof.
  unfold clear_of_blocks, block_end. rewrite forallb_forall. split.
  - intros H x b Hb.
    specialize (H (x, b)). simpl in H.
    rewrite orb_true_iff, !Z.leb_le in H. apply H.
    apply list_elem_of_In. by apply elem_of_map_to_list.
  - intros H [x b] Hin. simpl.
    rewrite orb_true_iff, !Z.leb_le. apply H.
    by apply elem_of_map_to_list, list_elem_of_In.
Qed.

(** The headers of a well-formed heap are below the break. *)
Lemma wf_below_brk st a b :
  heap_wf st -> blocks st !! a = Some b -> a + BLOCK_SIZE < brk st.
Proof.
  intros Hwf Hb. destruct (wf_inside _ Hwf _ _ Hb) as (? & ? & ?).
  unfold block_end in *. lia.
Qed.

Lemma wf_brk_fresh st : heap_wf st -> blocks st !! brk st = None.
Proof.
  intros Hwf. destruct (blocks st !! brk st) as [b|] eqn:Hb; [|done].
  apply (wf_below_brk _ _ _ Hwf) in Hb. unfold BLOCK_SIZE in Hb. lia.
Qed.

Lemma link_dom last x h a : is_Some (link last x h !! a) <-> is_Some (h !! a).
Proof.
  unfold link. destruct (last =? NULL); [done|].
  destruct (h !! last) as [bl|] eqn:Hbl; [|done].
  destruct (Z.eq_dec last a) as [->|Hne].
  - rewrite lookup_insert_eq, Hbl. split; eauto.
  - by rewrite lookup_insert_ne.
Qed.

Lemma link_size last x h a b :
  link last x h !! a = Some b ->
  exists b0, h !! a = Some b0 /\ blk_size b0 = blk_size b.
Proof.
  unfold link. destruct (last =? NULL); [eauto|].
  destruct (h !! last) as [bl|] eqn:Hbl; [|eauto].
  destruct (Z.eq_dec last a) as [->|Hne].
  - rewrite lookup_insert_eq. intros [= <-]. eauto.
  - rewrite lookup_insert_ne by done. eauto.
Qed.

Lemma store_block_update st a b0 b :
  blocks st !! a = Some b0 ->
  store_block a b st = Done tt (set_blocks (<[a := b]> (blocks st)) st).
Proof. intros H. unfold store_block. by rewrite H. Qed.

(** The room a new header needs at the break of a well-formed heap. *)
Lemma store_block_fresh st last new_brk fresh :
  heap_wf st ->
  store_block (brk st) fresh (set_blocks (link last (brk st) (blocks st)) (set_brk new_brk st)) =
    if brk st + BLOCK_SIZE <=? new_brk
    then Done tt (set_blocks (<[brk st := fresh]> (link last (brk st) (blocks st)))
                             (set_brk new_brk st))
    else Fault.
Proof.
  intros Hwf. destruct (heap_wf_limits _ Hwf) as (Hpos & Hlo & Hhi & Hmax).
  unfold store_block. cbn [blocks set_blocks set_brk].
  destruct (link last (brk st) (blocks st) !! brk st) as [b|] eqn:Hb.
  { assert (is_Some (blocks st !! brk st)) as [b0 Hb0] by (apply (link_dom last (brk st)); eauto).
    by rewrite (wf_brk_fresh _ Hwf) in Hb0. }
  unfold mapped. cbn [brk_lo brk set_blocks set_brk].
  destruct (Z.leb_spec (brk_lo st) (brk st)); [|lia].
  destruct (Z.leb_spec (brk st + BLOCK_SIZE) new_brk); [|done].
  cbn [andb].
  assert (clear_of_blocks (link last (brk st) (blocks st)) (brk st) = true) as ->; [|done].
  apply clear_of_blocks_spec. intros x b' Hb'. left.
  apply link_size in Hb' as (b0 & Hb0 & Hsz).
  destruct (wf_inside _ Hwf _ _ Hb0) as (_ & _ & Hend).
  unfold block_end in *. lia.
Qed.

Lemma extend_memory_spec st last size :
  heap_wf st ->
  last = NULL \/ is_Some (blocks st !! last) ->
  extend_memory last size st =
    if grow_rejected st size then Done NULL st
    else if BLOCK_SIZE <=? growth size then Done (brk st) (grown st last size)
    else Fault.
Proof.
  intros Hwf Hlast.
  destruct (heap_wf_limits _ Hwf) as (Hpos & Hlo & Hhi & Hmax).
  assert (forall new_brk,
    ((if last =? NULL then ret tt else set_next last (brk st)) ;;;
     store_block (brk st) (MemBlock size NULL 0 TAG_EXTENDED) ;;;
     ret (brk st)) (set_brk new_brk st) =
    if brk st + BLOCK_SIZE <=? new_brk
    then Done (brk st)
              (set_blocks (<[brk st := MemBlock size NULL 0 TAG_EXTENDED]>
                             (link last (brk st) (blocks st))) (set_brk new_brk st))
    else Fault) as Htail.
  { intros new_brk. unfold bind at 1.
    assert ((if last =? NULL then ret tt else set_next last (brk st)) (set_brk new_brk st) =
            Done tt (set_blocks (link last (brk st) (blocks st)) (set_brk new_brk st))) as ->.
    { unfold link. destruct (Z.eqb_spec last NULL) as [->|Hne]; [by destruct st|].
      destruct Hlast as [?|[b Hb]]; [done|].
      unfold set_next, bind, load_block, store_block. cbn [blocks set_brk].
      rewrite Hb. cbn [blocks set_brk]. by rewrite Hb. }
    unfold bind at 1. rewrite (store_block_fresh _ _ _ _ Hwf).
    by destruct (brk st + BLOCK_SIZE <=? new_brk). }
  assert (set_brk (brk st) st = st) as Hsame by (by destruct st).
  unfold extend_memory. unfold bind at 1. rewrite sbrk_zero.
  unfold bind at 1. unfold grow_rejected, sbrk_refuses, sbrk. fold (growth size).
  destruct (Z.eqb_spec (growth size) 0) as [H0|H0].
  { simpl. destruct (Z.eqb_spec (brk st) SBRK_FAILED); [lia|].
    unfold bind at 1. unfold assert. rewrite Z.eqb_refl.
    pose proof (Htail (brk st)) as Ht. rewrite Hsame in Ht. rewrite Ht, H0.
    destruct (Z.leb_spec (brk st + BLOCK_SIZE) (brk st)); [unfold BLOCK_SIZE in *; lia|].
    done. }
  simpl.
  destruct ((brk st + growth size <? 0) || (SIZE_MOD <=? brk st + growth size)) eqn:Hwrap.
  { by rewrite Z.eqb_refl. }
  cbn [orb]. apply orb_false_iff in Hwrap as [?%Z.ltb_ge ?%Z.leb_gt].
  destruct (Z.ltb_spec (brk_hi st) (brk st + growth size)).
  { by rewrite Z.eqb_refl. }
  destruct (Z.ltb_spec (brk st + growth size) (brk_lo st));
    (destruct (Z.eqb_spec (brk st) SBRK_FAILED); [lia|]);
    unfold bind at 1; unfold assert; rewrite Z.eqb_refl.
  - pose proof (Htail (brk st)) as Ht. rewrite Hsame in Ht. rewrite Ht.
    destruct (Z.leb_spec (brk st + BLOCK_SIZE) (brk st)); [unfold BLOCK_SIZE in *; lia|].
    destruct (Z.leb_spec BLOCK_SIZE (growth size)); [unfold BLOCK_SIZE in *; lia|done].
  - rewrite Htail.
    destruct (Z.leb_spec (brk st + BLOCK_SIZE) (brk st + growth size)),
             (Z.leb_spec BLOCK_SIZE (growth size)); try lia; reflexivity.
Qed.

Lemma growth_exact size :
  0 <= size -> size + BLOCK_SIZE <= INTPTR_MAX -> growth size = size + BLOCK_SIZE.
Proof.
  intros H0 Hmax. unfold growth, wrap, to_intptr.
  assert (INTPTR_MAX < SIZE_MOD) by (vm_compute; done).
  unfold BLOCK_SIZE in *.
  rewrite Z.mod_small by lia.
  destruct (Z.leb_spec (size + 24) INTPTR_MAX); [done|lia].
Qed.

(** A growth that leaves room for the header has not wrapped round. *)
Lemma growth_room size :
  0 <= size < SIZE_MOD -> BLOCK_SIZE <= growth size -> size + BLOCK_SIZE <= INTPTR_MAX.
Proof.
  intros [H0 Hmax]. unfold growth, wrap, to_intptr.
  assert (SIZE_MOD = 2 * INTPTR_MAX + 2 /\ 24 < INTPTR_MAX) as [Hm Hi] by (by vm_compute).
  unfold BLOCK_SIZE in *.
  destruct (Z.lt_ge_cases (size + 24) SIZE_MOD) as [Hlt|Hge].
  - rewrite Z.mod_small by lia.
    destruct (Z.leb_spec (size + 24) INTPTR_MAX); lia.
  - replace ((size + 24) mod SIZE_MOD) with (size + 24 - SIZE_MOD).
    + destruct (Z.leb_spec (size + 24 - SIZE_MOD) INTPTR_MAX); lia.
    + apply Z.mod_unique with 1; lia.
Qed.

(** For a growth that does not wrap round, [sbrk] fails exactly when the
    break cannot rise that far. *)
Lemma grow_rejected_small st size :
  limits_ok st -> 0 <= size -> size + BLOCK_SIZE <= INTPTR_MAX ->
  grow_rejected st size = (brk_hi st <? brk st + size + BLOCK_SIZE).
Proof.
  intros (Hpos & Hlo & Hhi & Hmax) H0 Hsmall.
  unfold grow_rejected, sbrk_refuses. rewrite growth_exact by done.
  assert (SBRK_FAILED < SIZE_MOD) by (by vm_compute).
  destruct (Z.eqb_spec (size + BLOCK_SIZE) 0); [unfold BLOCK_SIZE in *; lia|].
  cbn [negb andb]. rewrite Z.add_assoc.
  destruct (Z.ltb_spec (brk st + size + BLOCK_SIZE) 0); [unfold BLOCK_SIZE in *; lia|].
  destruct (Z.leb_spec SIZE_MOD (brk st + size + BLOCK_SIZE)),
           (Z.ltb_spec (brk_hi st) (brk st + size + BLOCK_SIZE)); try done; lia.
Qed.

(** What [sbrk] accepting a growth that did not wrap round means. *)
Lemma grow_accepted st size :
  0 <= size -> size + BLOCK_SIZE <= INTPTR_MAX ->
  grow_rejected st size = false ->
  limits_ok st -> brk st + (size + BLOCK_SIZE) <= brk_hi st.
Proof.
  intros H0 Hsmall Hrej (Hpos & Hlo & Hhi & Hmax).
  unfold grow_rejected, sbrk_refuses in Hrej. rewrite growth_exact in Hrej by done.
  destruct (Z.eqb_spec (size + BLOCK_SIZE) 0); [unfold BLOCK_SIZE in *; lia|].
  simpl in Hrej. apply orb_false_iff in Hrej as [_ ?%Z.ltb_ge]. done.
Qed.

(** ** The allocator, case by case *)

Lemma allocate_memory_spec st l size :
  heap_wf st -> chain (blocks st) (base st) l -> 0 < size ->
  allocate_memory size st = allocated st l size.
Proof.
  intros Hwf Hc Hsize. pose proof (heap_wf_limits _ Hwf) as (Hpos & Hlo & Hhi & Hmax).
  unfold allocate_memory, allocated.
  destruct (Z.leb_spec size 0); [lia|].
  unfold bind at 1. unfold get_base.
  destruct (Z.eqb_spec (base st) NULL) as [Hb|Hb].
  - rewrite Hb in Hc. apply chain_null in Hc as ->. simpl.
    unfold bind at 1. rewrite extend_memory_spec by (done || by left).
    rewrite Hb. destruct (grow_rejected st size); [done|].
    destruct (BLOCK_SIZE <=? growth size); [|done].
    destruct (Z.eqb_spec (brk st) NULL); [unfold NULL in *; lia|].
    reflexivity.
  - unfold bind at 1. rewrite (locate_free_block_chain _ _ _ _ Hc).
    destruct (Z.eqb_spec (fst (first_fit (blocks st) size l (base st))) NULL) as [Hn|Hn].
    + destruct (first_fit_null _ _ _ _ (chain_not_null _ _ _ Hc) Hn) as [_ Heq].
      rewrite Heq. simpl. unfold bind at 1.
      rewrite extend_memory_spec; [|done|].
      * destruct (grow_rejected st size); [done|].
        destruct (BLOCK_SIZE <=? growth size); [|done].
        destruct (Z.eqb_spec (brk st) NULL); [unfold NULL in *; lia|].
        reflexivity.
      * destruct (last l) as [x|] eqn:Hx; simpl.
        -- right. by eapply chain_last.
        -- apply last_None in Hx. subst l. simpl in Hc. done.
    + destruct (first_fit_found _ _ _ _ Hn) as (pre & a & post & -> & _ & Ha & Heq).
      rewrite Heq. simpl. unfold fits_at in Ha.
      unfold mark_used, bind, load_block.
      destruct (blocks st !! a) as [b|] eqn:Hb'; [|done].
      by rewrite (store_block_update _ _ _ _ Hb').
Qed.

(** The four things [allocate_memory] can do on a well-formed heap: fail
    because [sbrk] did, grow the heap by a new block, store the new header
    where the break has not made room for it, or take a free block. *)
Lemma allocate_memory_cases st l size :
  heap_wf st -> chain (blocks st) (base st) l -> 0 < size ->
  (Forall (fun x => fits_at (blocks st) size x = false) l /\
   grow_rejected st size = true /\
   allocate_memory size st = Done NULL st)
  \/ (Forall (fun x => fits_at (blocks st) size x = false) l /\
      (grow_rejected st size = false /\ BLOCK_SIZE <= growth size) /\
      allocate_memory size st = Done (brk st + BLOCK_SIZE) (appended st l size))
  \/ (exists pre a post b,
        l = pre ++ a :: post /\
        Forall (fun x => fits_at (blocks st) size x = false) pre /\
        blocks st !! a = Some b /\ fits size b = true /\
        allocate_memory size st = Done (a + BLOCK_SIZE) (reused st a b))
  \/ (Forall (fun x => fits_at (blocks st) size x = false) l /\
      (grow_rejected st size = false /\ growth size < BLOCK_SIZE) /\
      allocate_memory size st = Fault).
Proof.
  intros Hwf Hc Hsize. rewrite (allocate_memory_spec _ _ _ Hwf Hc Hsize).
  unfold allocated, appended.
  destruct (Z.eqb_spec (fst (first_fit (blocks st) size l (base st))) NULL) as [Hn|Hn].
  - destruct (first_fit_null _ _ _ _ (chain_not_null _ _ _ Hc) Hn) as [Hall Heq].
    rewrite Heq. simpl. destruct (grow_rejected st size); [by left|].
    destruct (Z.leb_spec BLOCK_SIZE (growth size)).
    + right; left. done.
    + right; right; right. done.
  - destruct (first_fit_found _ _ _ _ Hn) as (pre & a & post & -> & Hpre & Ha & Heq).
    rewrite Heq. simpl. unfold fits_at in Ha.
    right; right; left. destruct (blocks st !! a) as [b|] eqn:Hb; [|done].
    by exists pre, a, post, b.
Qed.

Lemma allocate_memory_reuse st pre a post b size :
  chain (blocks st) (base st) (pre ++ a :: post) ->
  Forall (fun x => fits_at (blocks st) size x = false) pre ->
  blocks st !! a = Some b -> fits size b = true -> 0 < size ->
  allocate_memory size st = Done (a + BLOCK_SIZE) (reused st a b).
Proof.
  intros Hc Hpre Hb Hfit Hsize. unfold allocate_memory.
  destruct (Z.leb_spec size 0); [lia|].
  unfold bind at 1. unfold get_base.
  assert (a <> NULL) as Ha.
  { eapply chain_elem_of; [exact Hc|]. apply elem_of_app. right. by left. }
  destruct (Z.eqb_spec (base st) NULL) as [Hbase|Hbase].
  { rewrite Hbase in Hc. apply chain_null in Hc. by destruct pre. }
  unfold bind at 1. rewrite (locate_free_block_chain _ _ _ _ Hc).
  rewrite first_fit_app; [|done|by unfold fits_at; rewrite Hb]. simpl.
  destruct (Z.eqb_spec a NULL); [done|].
  unfold mark_used, bind, load_block. rewrite Hb.
  by rewrite (store_block_update _ _ _ _ Hb).
Qed.

(** ** Release *)

Lemma in_use_tagb_spec t : in_use_tagb t = true <-> in_use_tag t.
Proof.
  unfold in_use_tagb, in_use_tag. rewrite orb_true_iff, !Z.eqb_eq. tauto.
Qed.

Lemma release_memory_spec st ptr b :
  ptr <> NULL -> blocks st !! retrieve_block_ptr ptr = Some b ->
  release_memory ptr st =
    if (blk_free b =? 0) && in_use_tagb (blk_debug_flag b)
    then Done tt (released st ptr b) else AssertFail.
Proof.
  intros Hp Hb. unfold release_memory.
  destruct (Z.eqb_spec ptr NULL); [done|].
  unfold bind, load_block. rewrite Hb. unfold assert, in_use_tagb.
  destruct (blk_free b =? 0); [|done]. simpl.
  destruct ((blk_debug_flag b =? TAG_REUSED) || (blk_debug_flag b =? TAG_EXTENDED)); [|done].
  by rewrite (store_block_update _ _ _ _ Hb).
Qed.

(** ** Byte copies and fills *)

Lemma fill_bytes_lookup n : forall m dst c a,
  fill_bytes m dst c n !! a =
    if decide (dst <= a < dst + Z.of_nat n) then Some c else m !! a.
Proof.
  induction n as [|n IH]; intros m dst c a.
  - simpl. destruct (decide _); [lia|done].
  - cbn [fill_bytes]. rewrite IH.
    destruct (decide (dst + 1 <= a < dst + 1 + Z.of_nat n)),
             (decide (dst <= a < dst + Z.of_nat (S n))); try done; try lia.
    + rewrite lookup_insert. destruct (decide (dst = a)); [done|lia].
    + rewrite lookup_insert_ne by lia. done.
Qed.

Lemma copy_bytes_lookup n : forall m dst src a,
  dst + Z.of_nat n <= src \/ src + Z.of_nat n <= dst ->
  copy_bytes m dst src n !! a =
    if decide (dst <= a < dst + Z.of_nat n) then m !! (src + (a - dst)) else m !! a.
Proof.
  induction n as [|n IH]; intros m dst src a Hapart.
  - simpl. destruct (decide _); [lia|done].
  - cbn [copy_bytes]. rewrite IH by lia.
    destruct (decide (dst + 1 <= a < dst + 1 + Z.of_nat n)),
             (decide (dst <= a < dst + Z.of_nat (S n))); try lia.
    + rewrite lookup_partial_alter_ne by lia. f_equal. lia.
    + rewrite lookup_partial_alter. assert (a = dst) as -> by lia.
      destruct (decide (dst = dst)); [|done]. f_equal. lia.
    + rewrite lookup_partial_alter_ne by lia. done.
Qed.

Lemma overlapping_false dst src n :
  dst + n <= src \/ src + n <= dst -> overlapping dst src n = false.
Proof.
  intros H. unfold overlapping.
  destruct (Z.ltb_spec 0 n); [|done].
  destruct (Z.ltb_spec dst (src + n)); [|done].
  destruct (Z.ltb_spec src (dst + n)); [lia|done].
Qed.

(** ** The inner allocation of a reallocation *)

(** On a well-formed heap a successful [allocate_memory] leaves the
    payload bytes alone, keeps size, [free] and tag of every block in use,
    and returns a block that lies apart from each of them. *)
Lemma allocate_memory_frame st l size ptr st1 :
  heap_wf st -> chain (blocks st) (base st) l -> 0 < size ->
  allocate_memory size st = Done ptr st1 -> ptr <> NULL ->
  bytes st1 = bytes st /\
  exists bq,
    blocks st1 !! retrieve_block_ptr ptr = Some bq /\ size <= blk_size bq /\
    forall a b, blocks st !! a = Some b -> blk_free b = 0 ->
      a <> retrieve_block_ptr ptr /\
      (exists b', blocks st1 !! a = Some b' /\ blk_size b' = blk_size b /\
                  blk_free b' = blk_free b /\ blk_debug_flag b' = blk_debug_flag b) /\
      (block_end a b <= retrieve_block_ptr ptr \/
       block_end (retrieve_block_ptr ptr) bq <= a).
Proof.
  intros Hwf Hc Hsize Halloc Hptr.
  pose proof (heap_wf_limits _ Hwf) as Hlim.
  destruct (allocate_memory_cases st l size Hwf Hc Hsize) as
    [(Hall & Hrej & Heq)|[(Hall & Hrej & Heq)|
     [(pre & aq & post & bq & -> & Hpre & Hbq & Hfit & Heq)|(Hall & Hrej & Heq)]]];
    rewrite Heq in Halloc; [ | | | done]; injection Halloc as <- <-; [done| |].
  - split; [done|]. unfold retrieve_block_ptr.
    replace (brk st + BLOCK_SIZE - BLOCK_SIZE) with (brk st) by lia.
    exists (MemBlock size NULL 0 TAG_EXTENDED). cbn [blocks appended set_base grown].
    split; [apply lookup_insert_eq|]. split; [simpl; lia|].
    intros a b Hb Hfree. destruct (wf_inside _ Hwf _ _ Hb) as (Ha1 & Ha2 & Ha3).
    assert (a <> brk st) by (unfold block_end, BLOCK_SIZE in *; lia).
    split; [done|]. split; [|by left].
    rewrite lookup_insert_ne by done. unfold link.
    destruct (default (base st) (last l) =? NULL); [by exists b|].
    destruct (blocks st !! default (base st) (last l)) as [bl|] eqn:Hbl; [|by exists b].
    destruct (Z.eq_dec (default (base st) (last l)) a) as [Heq'|Hne].
    + rewrite Heq' in *. rewrite lookup_insert_eq. rewrite Hb in Hbl. injection Hbl as <-.
      eexists. split; [done|]. done.
    + rewrite lookup_insert_ne by done. by exists b.
  - split; [done|]. unfold retrieve_block_ptr.
    replace (aq + BLOCK_SIZE - BLOCK_SIZE) with aq by lia.
    exists (MemBlock (blk_size bq) (blk_next bq) 0 TAG_REUSED). cbn [blocks reused set_blocks].
    split; [apply lookup_insert_eq|].
    split; [unfold fits in Hfit; apply andb_true_iff in Hfit as [_ ?%Z.leb_le]; done|].
    intros a b Hb Hfree.
    assert (a <> aq) as Hne.
    { intros ->. rewrite Hb in Hbq. injection Hbq as <-.
      unfold fits in Hfit. rewrite Hfree in Hfit. done. }
    split; [done|]. split; [rewrite lookup_insert_ne by done; by exists b|].
    destruct (Z.lt_total a aq) as [Hlt|[?|Hlt]]; [|done|].
    + left. eapply wf_apart; eauto.
    + right. unfold block_end. simpl. eapply (wf_apart _ Hwf aq bq a b); eauto.
Qed.

Lemma reallocate_memory_unfold st ptr size b :
  ptr <> NULL -> blocks st !! retrieve_block_ptr ptr = Some b ->
  reallocate_memory ptr size st =
    if size <=? blk_size b then Done ptr st
    else match allocate_memory size st with
         | Done new_ptr st1 =>
             if new_ptr =? NULL then Done NULL st1
             else match blocks st1 !! retrieve_block_ptr ptr with
                  | Some b' =>
                      if overlapping new_ptr ptr (blk_size b') then Fault
                      else (release_memory ptr ;;; ret new_ptr)
                             (set_bytes (copy_bytes (bytes st1) new_ptr ptr
                                           (Z.to_nat (blk_size b'))) st1)
                  | None => Fault
                  end
         | AssertFail => AssertFail
         | Fault => Fault
         | Diverge => Diverge
         end.
Proof.
  intros Hp Hb. unfold reallocate_memory.
  destruct (Z.eqb_spec ptr NULL); [done|].
  unfold bind at 1. unfold load_block at 1. rewrite Hb.
  destruct (size <=? blk_size b); [done|].
  unfold bind at 1. destruct (allocate_memory size st) as [q st1| | |]; try done.
  destruct (q =? NULL); [done|].
  unfold bind at 1. unfold load_block at 1.
  destruct (blocks st1 !! retrieve_block_ptr ptr) as [b'|]; [|done].
  unfold bind at 1. unfold memcpy.
  destruct (overlapping q ptr (blk_size b')); done.
Qed.

(** The growing path of [reallocate_memory], step by step. *)
Lemma reallocate_memory_moves st st1 l ptr size new_ptr b :
  heap_wf st -> chain (blocks st) (base st) l ->
  ptr <> NULL ->
  blocks st !! retrieve_block_ptr ptr = Some b ->
  blk_free b = 0 -> in_use_tag (blk_debug_flag b) ->
  blk_size b < size ->
  allocate_memory size st = Done new_ptr st1 -> new_ptr <> NULL ->
  exists b',
    blocks st1 !! retrieve_block_ptr ptr = Some b' /\
    blk_size b' = blk_size b /\
    bytes st1 = bytes st /\
    new_ptr <> ptr /\
    (new_ptr + blk_size b <= ptr \/ ptr + blk_size b <= new_ptr) /\
    reallocate_memory ptr size st =
      Done new_ptr
           (released (set_bytes (copy_bytes (bytes st1) new_ptr ptr
                                   (Z.to_nat (blk_size b))) st1) ptr b').
Proof.
  intros Hwf Hc Hp Hb Hfree Htag Hlt Halloc Hnew.
  destruct (wf_inside _ Hwf _ _ Hb) as (Ha1 & Ha2 & Ha3).
  assert (0 < size) as Hsize by lia.
  destruct (allocate_memory_frame _ _ _ _ _ Hwf Hc Hsize Halloc Hnew)
    as (Hbytes & bq & Hbq & Hsz & Hframe).
  destruct (Hframe _ _ Hb Hfree) as (Hne & (b' & Hb' & Hs' & Hf' & Ht') & Hapart).
  assert (new_ptr <> ptr) as Hdiff by (unfold retrieve_block_ptr in Hne; lia).
  assert (new_ptr + blk_size b <= ptr \/ ptr + blk_size b <= new_ptr) as Hsep.
  { unfold block_end, retrieve_block_ptr, BLOCK_SIZE in *. lia. }
  exists b'. do 5 (split; [done|]).
  rewrite (reallocate_memory_unfold _ _ _ _ Hp Hb), Halloc, Hb'.
  destruct (Z.leb_spec size (blk_size b)); [lia|].
  destruct (Z.eqb_spec new_ptr NULL); [done|].
  rewrite Hs', overlapping_false by done.
  unfold bind. erewrite release_memory_spec; [|done|exact Hb'].
  apply in_use_tagb_spec in Htag. rewrite Hf', Hfree, Ht', Htag. done.
Qed.

(** ** Zeroed allocation *)

Lemma wrap_range z : 0 <= wrap z < SIZE_MOD.
Proof. unfold wrap. apply Z.mod_pos_bound. by vm_compute. Qed.

Lemma zero_allocate_spec st elements element_size :
  zero_allocate elements element_size st =
    match allocate_memory (wrap (elements * element_size)) st with
    | Done ptr st1 =>
        if ptr =? NULL then Done ptr st1
        else if (0 <? wrap (elements * element_size))
                && negb (mapped st1 ptr (wrap (elements * element_size)))
        then Fault
        else Done ptr (set_bytes (fill_bytes (bytes st1) ptr Byte.x00
                                    (Z.to_nat (wrap (elements * element_size)))) st1)
    | AssertFail => AssertFail
    | Fault => Fault
    | Diverge => Diverge
    end.
Proof.
  unfold zero_allocate, bind.
  destruct (allocate_memory _ st) as [ptr st1| | |]; try done.
  destruct (ptr =? NULL); [done|]. unfold memset.
  by destruct (_ && _).
Qed.

(** ** What a returning call can have done *)

Lemma locate_loop_found n : forall h size current last a last',
  locate_loop n h size current last = Some (Some (a, last')) ->
  a = NULL \/ exists b, h !! a = Some b /\ fits size b = true.
Proof.
  induction n as [|n IH]; intros h size current last a last'; simpl.
  - destruct (Z.eqb_spec current NULL) as [->|_]; [intros [= <- _]; by left|].
    destruct (h !! current) as [b|] eqn:Hb; [|done].
    destruct (fits size b) eqn:Hfit; [|done].
    intros [= <- _]. right. eauto.
  - destruct (Z.eqb_spec current NULL) as [->|_]; [intros [= <- _]; by left|].
    destruct (h !! current) as [b|] eqn:Hb; [|done].
    destruct (fits size b) eqn:Hfit; [|by apply IH].
    intros [= <- _]. right. eauto.
Qed.

Lemma sbrk_done st increment r st' :
  sbrk increment st = Done r st' ->
  blocks st' = blocks st /\ bytes st' = bytes st /\ base st' = base st.
Proof.
  unfold sbrk. repeat case_match; intros [= _ <-]; done.
Qed.

Lemma store_block_done st a b r st' :
  store_block a b st = Done r st' -> st' = set_blocks (<[a := b]> (blocks st)) st.
Proof.
  unfold store_block. repeat case_match; intros [= <-]; done.
Qed.

Lemma extend_memory_done st last size block st' :
  extend_memory last size st = Done block st' ->
  bytes st' = bytes st /\
  ((block = NULL /\ blocks st' = blocks st) \/
   blocks st' = <[block := MemBlock size NULL 0 TAG_EXTENDED]> (link last block (blocks st))).
Proof.
  unfold extend_memory. unfold bind at 1.
  destruct (sbrk 0 st) as [blk sta| | |] eqn:H0; try done.
  apply sbrk_done in H0 as (Hb0 & Hy0 & _).
  unfold bind at 1.
  destruct (sbrk _ sta) as [nb stb| | |] eqn:H1; try done.
  apply sbrk_done in H1 as (Hb1 & Hy1 & _).
  destruct (nb =? SBRK_FAILED).
  { intros [= <- <-]. split; [congruence|]. left. split; [done|congruence]. }
  unfold bind at 1. unfold assert. destruct (blk =? nb); [|done].
  unfold bind at 1. unfold link.
  destruct (last =? NULL).
  - unfold ret at 1. unfold bind at 1.
    destruct (store_block _ _ stb) as [[] stc| | |] eqn:Hst; try done.
    apply store_block_done in Hst as ->.
    intros [= <- <-]. simpl. split; [congruence|]. right. congruence.
  - unfold set_next. unfold bind at 1. unfold load_block.
    destruct (blocks stb !! last) as [bl|] eqn:Hbl; [|done].
    destruct (store_block last _ stb) as [[] stc| | |] eqn:Hst1; try done.
    apply store_block_done in Hst1 as ->.
    unfold bind at 1.
    destruct (store_block blk _ _) as [[] std| | |] eqn:Hst2; try done.
    apply store_block_done in Hst2 as ->.
    intros [= <- <-]. simpl. split; [congruence|]. right.
    rewrite <- Hb0, <- Hb1, Hbl. done.
Qed.

Lemma allocate_memory_done st size res st' :
  allocate_memory size st = Done res st' ->
  bytes st' = bytes st /\
  ((res = NULL /\ blocks st' = blocks st) \/
   (exists a, 0 < size /\ taken size (blocks st) a (blocks st') /\
              (res = NULL \/ res = a + BLOCK_SIZE))).
Proof.
  unfold allocate_memory.
  destruct (Z.leb_spec size 0) as [|Hsize]; [intros [= <- <-]; split; [done|]; by left|].
  unfold bind at 1. unfold get_base.
  destruct (base st =? NULL).
  - unfold bind at 1.
    destruct (extend_memory NULL size st) as [blk st2| | |] eqn:Hext; try done.
    apply extend_memory_done in Hext as (Hy & Hext).
    destruct (Z.eqb_spec blk NULL) as [->|Hblk].
    + intros [= <- <-]. split; [done|].
      destruct Hext as [[_ ?]|Hext]; [by left|].
      right. exists NULL. split; [done|]. split; [right; eauto|by left].
    + unfold bind, put_base, ret. intros [= <- <-]. simpl. split; [done|].
      destruct Hext as [[? _]|Hext]; [done|].
      right. exists blk. split; [done|]. split; [right; eauto|by right].
  - unfold bind at 1. unfold locate_free_block.
    destruct (locate_loop _ _ _ _ _) as [[[a last']|]|] eqn:Hloop; try done.
    apply locate_loop_found in Hloop. simpl.
    destruct (Z.eqb_spec a NULL) as [->|Ha].
    + unfold bind at 1.
      destruct (extend_memory last' size st) as [blk st2| | |] eqn:Hext; try done.
      apply extend_memory_done in Hext as (Hy & Hext).
      destruct (Z.eqb_spec blk NULL) as [->|Hblk].
      * intros [= <- <-]. split; [done|].
        destruct Hext as [[_ ?]|Hext]; [by left|].
        right. exists NULL. split; [done|]. split; [right; eauto|by left].
      * intros [= <- <-]. split; [done|].
        destruct Hext as [[? _]|Hext]; [done|].
        right. exists blk. split; [done|]. split; [right; eauto|by right].
    + destruct Hloop as [?|(b & Hb & Hfit)]; [done|].
      unfold mark_used, bind, load_block, ret. rewrite Hb.
      rewrite (store_block_update _ _ _ _ Hb).
      intros [= <- <-]. simpl. split; [done|].
      right. exists a. split; [done|]. split; [left; eauto|by right].
Qed.

(** Blocks in use stay in use when the allocator takes a block, and the
    block taken is in use. *)
Lemma taken_live size h a h' :
  taken size h a h' ->
  forall a',
    a' = a \/ (exists b, h !! a' = Some b /\ blk_free b = 0 /\ in_use_tag (blk_debug_flag b)) ->
    exists b, h' !! a' = Some b /\ blk_free b = 0 /\ in_use_tag (blk_debug_flag b).
Proof.
  intros [(b & Hb & Hfit & ->)|(last & ->)] a' Ha'.
  - destruct (Z.eq_dec a' a) as [->|Hne].
    + rewrite lookup_insert_eq. eexists. split; [done|]. split; [done|]. by right.
    + rewrite lookup_insert_ne by done. by destruct Ha'.
  - destruct (Z.eq_dec a' a) as [->|Hne].
    + rewrite lookup_insert_eq. eexists. split; [done|]. split; [done|]. by left.
    + rewrite lookup_insert_ne by done. destruct Ha' as [?|(b & Hb & Hfree & Htag)]; [done|].
      unfold link. destruct (last =? NULL); [eauto|].
      destruct (h !! last) as [bl|] eqn:Hbl; [|eauto].
      destruct (Z.eq_dec last a') as [->|Hne'].
      * rewrite lookup_insert_eq. rewrite Hb in Hbl. injection Hbl as <-. eauto.
      * rewrite lookup_insert_ne by done. eauto.
Qed.

(** ** Blocks in use stay in use *)

Lemma retrieve_block_ptr_user a : retrieve_block_ptr (a + BLOCK_SIZE) = a.
Proof. unfold retrieve_block_ptr. lia. Qed.

Lemma allocate_memory_keeps st size res st' live :
  all_live st live -> allocate_memory size st = Done res st' ->
  all_live st' (if res =? NULL then live else {[res]} ∪ live).
Proof.
  intros Hlive Halloc.
  apply allocate_memory_done in Halloc as (_ & [[-> Hsame]|(a & _ & Htaken & Hres)]).
  - simpl. intros p Hp. unfold live_block. rewrite Hsame. by apply Hlive.
  - assert (all_live st' live) as Hold.
    { intros p Hp. eapply taken_live; [exact Htaken|]. right. by apply Hlive. }
    destruct (Z.eqb_spec res NULL) as [|Hne]; [done|].
    destruct Hres as [? | ->]; [done|].
    intros p [->%elem_of_singleton|Hp]%elem_of_union; [|by apply Hold].
    eapply taken_live; [exact Htaken|]. left. apply retrieve_block_ptr_user.
Qed.

Lemma all_live_bytes st m live : all_live st live -> all_live (set_bytes m st) live.
Proof. intros H p Hp. exact (H p Hp). Qed.

Lemma all_live_subseteq st live live' :
  live' ⊆ live -> all_live st live -> all_live st live'.
Proof. intros Hsub H p Hp. apply H, Hsub, Hp. Qed.

Lemma release_memory_keeps st ptr st' live :
  all_live st live -> release_memory ptr st = Done tt st' ->
  all_live st' (live ∖ {[ptr]}).
Proof.
  intros Hlive. unfold release_memory.
  destruct (Z.eqb_spec ptr NULL) as [->|Hp].
  { intros [= <-]. eapply all_live_subseteq; [|done].
    intros x [Hx _]%elem_of_difference. exact Hx. }
  unfold bind, load_block, assert.
  destruct (blocks st !! retrieve_block_ptr ptr) as [b|] eqn:Hb; [|done].
  destruct (blk_free b =? 0); [|done].
  destruct (_ || _); [|done].
  rewrite (store_block_update _ _ _ _ Hb).
  intros [= <-] p [Hp' Hne%not_elem_of_singleton]%elem_of_difference.
  unfold live_block. simpl.
  rewrite lookup_insert_ne by (unfold retrieve_block_ptr; lia).
  by apply Hlive.
Qed.

Lemma reallocate_memory_keeps st ptr size res st' live :
  all_live st live -> ptr ∈ live -> ptr <> NULL ->
  reallocate_memory ptr size st = Done res st' ->
  all_live st' (if res =? NULL then live else {[res]} ∪ (live ∖ {[ptr]})).
Proof.
  intros Hlive Hin Hp. destruct (Hlive _ Hin) as (b & Hb & Hfree & Htag).
  unfold reallocate_memory.
  destruct (Z.eqb_spec ptr NULL); [done|].
  unfold bind at 1. unfold load_block at 1. rewrite Hb.
  destruct (size <=? blk_size b).
  { intros [= <- <-]. destruct (Z.eqb_spec ptr NULL); [done|].
    eapply all_live_subseteq; [|done].
    intros x [->%elem_of_singleton|[Hx _]%elem_of_difference]%elem_of_union; done. }
  unfold bind at 1.
  destruct (allocate_memory size st) as [q st1| | |] eqn:Halloc; try done.
  pose proof (allocate_memory_keeps _ _ _ _ _ Hlive Halloc) as Hkeep.
  destruct (Z.eqb_spec q NULL) as [->|Hq].
  { intros [= <- <-]. done. }
  unfold bind at 1. unfold load_block at 1.
  destruct (blocks st1 !! retrieve_block_ptr ptr) as [b'|] eqn:Hb'; [|done].
  unfold bind at 1. unfold memcpy.
  destruct (overlapping q ptr (blk_size b')) eqn:Hover; [done|].
  unfold bind at 1.
  destruct (release_memory ptr _) as [[] st2| | |] eqn:Hrel; try done.
  intros [= <- <-]. destruct (Z.eqb_spec q NULL); [done|].
  assert (q <> ptr) as Hdiff.
  { intros ->. apply allocate_memory_done in Halloc
      as (_ & [[? _]|(a & Hsize & Htaken & [?|Ha])]); try done.
    assert (a = retrieve_block_ptr ptr) as -> by (unfold retrieve_block_ptr; lia).
    destruct Htaken as [(c & Hc & Hfit & _)|(last & Heq)].
    - rewrite Hb in Hc. injection Hc as <-. unfold fits in Hfit.
      rewrite Hfree in Hfit. done.
    - rewrite Heq, lookup_insert_eq in Hb'. injection Hb' as <-.
      unfold overlapping in Hover. simpl in Hover.
      destruct (Z.ltb_spec 0 size); [|lia].
      destruct (Z.ltb_spec ptr (ptr + size)); [|lia]. done. }
  apply (all_live_bytes _ (copy_bytes (bytes st1) q ptr (Z.to_nat (blk_size b')))) in Hkeep.
  pose proof (release_memory_keeps _ _ _ _ Hkeep Hrel) as Hfinal.
  eapply all_live_subseteq; [|exact Hfinal].
  intros x Hx. apply elem_of_difference.
  apply elem_of_union in Hx as [->%elem_of_singleton|[Hx Hn]%elem_of_difference].
  - split; [apply elem_of_union_l; by apply elem_of_singleton|].
    by intros ->%elem_of_singleton.
  - split; [by apply elem_of_union_r|done].
Qed.

Lemma perform_keeps st r res st' live :
  all_live st live -> request_ok live r = true ->
  perform r st = Done res st' -> all_live st' (track r res live).
Proof.
  intros Hlive Hok. destruct r as [size|n k|ptr size|ptr]; simpl in *.
  - by apply allocate_memory_keeps.
  - rewrite zero_allocate_spec.
    destruct (allocate_memory _ st) as [q st1| | |] eqn:Halloc; try done.
    pose proof (allocate_memory_keeps _ _ _ _ _ Hlive Halloc) as Hkeep.
    destruct (Z.eqb_spec q NULL) as [->|Hq].
    + intros [= <- <-]. done.
    + destruct (_ && _); [done|].
      intros [= <- <-]. destruct (Z.eqb_spec q NULL); [done|].
      by apply all_live_bytes.
  - destruct (Z.eqb_spec ptr NULL) as [->|Hp].
    + simpl. intros Halloc.
      pose proof (allocate_memory_keeps _ _ _ _ _ Hlive Halloc) as Hkeep.
      destruct (res =? NULL); [done|].
      intros p [Hp|[Hp _]%elem_of_difference]%elem_of_union; apply Hkeep.
      * by apply elem_of_union_l.
      * by apply elem_of_union_r.
    + simpl in Hok. apply bool_decide_eq_true in Hok.
      by apply reallocate_memory_keeps.
  - unfold bind.
    destruct (release_memory ptr st) as [[] st1| | |] eqn:Hrel; try done.
    intros [= <- <-]. by eapply release_memory_keeps.
Qed.

(** ** Well-formed heaps stay well-formed *)

Lemma heap_wf_set_bytes st m : heap_wf st -> heap_wf (set_bytes m st).
Proof. intros [H1 H2 H3 H4]. by split. Qed.

Lemma heap_wf_update st a b b' :
  heap_wf st -> blocks st !! a = Some b ->
  blk_size b' = blk_size b -> blk_next b' = blk_next b ->
  heap_wf (set_blocks (<[a := b']> (blocks st)) st).
Proof.
  intros [Hlim [l Hc] Hin Hap] Hb Hsize Hnext. split; cbn [set_blocks blocks brk brk_lo brk_hi base].
  - done.
  - exists l. eapply chain_ext; [exact Hc|]. intros x c _ Hx.
    destruct (Z.eq_dec a x) as [->|Hne].
    + rewrite lookup_insert_eq. exists b'. split; [done|]. congruence.
    + rewrite lookup_insert_ne by done. eauto.
  - intros x c [[<- <-]|[_ Hx]]%lookup_insert_Some; [|eauto].
    unfold block_end. rewrite Hsize. by apply Hin.
  - intros x1 c1 x2 c2 [[<- <-]|[_ H1]]%lookup_insert_Some
                       [[<- <-]|[_ H2]]%lookup_insert_Some Hlt;
      unfold block_end; rewrite ?Hsize; try lia.
    + eapply (Hap a b x2 c2); eauto.
    + eapply (Hap x1 c1 a b); eauto.
    + eapply (Hap x1 c1 x2 c2); eauto.
Qed.

Lemma heap_wf_appended st l size :
  heap_wf st -> chain (blocks st) (base st) l ->
  0 < size -> size + BLOCK_SIZE <= INTPTR_MAX ->
  grow_rejected st size = false ->
  heap_wf (appended st l size).
Proof.
  intros Hwf Hc Hsize Hsmall Hrej.
  destruct Hwf as [Hlim _ Hin Hap]. pose proof Hlim as (Hpos & Hlo & Hhi & Hmax).
  assert (forall a b, blocks st !! a = Some b -> a < brk st) as Hbelow.
  { intros a b Hb. destruct (Hin _ _ Hb) as (? & ? & ?).
    unfold block_end, BLOCK_SIZE in *. lia. }
  assert (brk st ∉ l) as Hfresh.
  { intros Hx. destruct (chain_elem_of _ _ _ _ Hc Hx) as [_ [b Hb]].
    apply Hbelow in Hb. lia. }
  assert (brk st <> NULL) as Hnn by (unfold NULL; lia).
  assert (brk st + (size + BLOCK_SIZE) <= brk_hi st) as Hr2
    by (apply grow_accepted; [lia|done..]).
  assert (forall a b,
            link (default (base st) (last l)) (brk st) (blocks st) !! a = Some b ->
            exists b0, blocks st !! a = Some b0 /\ blk_size b = blk_size b0) as Hlink.
  { intros a b. unfold link. destruct (_ =? NULL); [eauto|].
    destruct (blocks st !! default (base st) (last l)) as [bl|] eqn:Hbl; [|eauto].
    intros [[<- <-]|[_ Hb]]%lookup_insert_Some; eauto. }
  split; unfold limits_ok; cbn [appended set_base grown blocks brk brk_lo brk_hi base];
    rewrite ?growth_exact by lia.
  - unfold BLOCK_SIZE in *. lia.
  - exists (l ++ [brk st]). destruct l as [|y l'] eqn:Hl.
    + simpl in Hc. rewrite Hc. simpl. split; [done|]. split; [done|].
      eexists. split; [apply lookup_insert_eq|done].
    + rewrite <- Hl in *.
      assert (base st <> NULL) as Hb.
      { rewrite Hl in Hc. simpl in Hc. destruct Hc as (-> & ? & _). done. }
      destruct (Z.eqb_spec (base st) NULL); [done|].
      destruct (last l) as [tl|] eqn:Htl; [|apply last_None in Htl; congruence].
      destruct (chain_last _ _ _ _ Hc Htl) as [btl Hbtl].
      simpl. unfold link.
      assert (tl <> NULL) as Htn.
      { eapply chain_elem_of; [exact Hc|]. by eapply last_Some_elem_of. }
      destruct (Z.eqb_spec tl NULL); [done|]. rewrite Hbtl.
      by apply chain_snoc.
  - intros a b [[<- <-]|[_ Hb]]%lookup_insert_Some.
    + unfold block_end. simpl. lia.
    + apply Hlink in Hb as (b0 & Hb0 & Heq). destruct (Hin _ _ Hb0) as (? & ? & ?).
      unfold block_end in *. rewrite Heq. unfold BLOCK_SIZE in *. lia.
  - intros a1 b1 a2 b2 [[<- <-]|[_ H1]]%lookup_insert_Some
                       [[<- <-]|[_ H2]]%lookup_insert_Some Hlt; try lia.
    + apply Hlink in H2 as (b0 & Hb0 & _). apply Hbelow in Hb0. lia.
    + apply Hlink in H1 as (b0 & Hb0 & Heq). destruct (Hin _ _ Hb0) as (? & ? & ?).
      unfold block_end in *. rewrite Heq. done.
    + apply Hlink in H1 as (c1 & Hc1 & Heq1). apply Hlink in H2 as (c2 & Hc2 & _).
      unfold block_end. rewrite Heq1. by eapply (Hap a1 c1 a2 c2).
Qed.

(** A call that returns leaves a well-formed heap well-formed, whatever the
    [size_t] it was given: where the growth wrapped round, the store of the
    new header is undefined. *)
Lemma allocate_memory_wf_typed st size ptr st' :
  heap_wf st -> size < SIZE_MOD ->
  allocate_memory size st = Done ptr st' -> heap_wf st'.
Proof.
  intros Hwf Htyped. destruct (Z.leb_spec size 0) as [Hle|Hsize].
  { unfold allocate_memory. destruct (Z.leb_spec size 0); [|lia]. by intros [= _ <-]. }
  destruct (wf_chain _ Hwf) as [l Hc].
  destruct (allocate_memory_cases st l size Hwf Hc Hsize) as
    [(_ & _ & Heq)|[(_ & [Hrej Hroom] & Heq)|
     [(pre & a & post & b & -> & _ & Hb & _ & Heq)|(_ & _ & Heq)]]];
    rewrite Heq; [ | | |done]; intros [= _ <-].
  - done.
  - apply heap_wf_appended; try done. apply growth_room; [lia|done].
  - by eapply heap_wf_update.
Qed.

Lemma small_typed size : size + BLOCK_SIZE <= INTPTR_MAX -> size < SIZE_MOD.
Proof.
  assert (INTPTR_MAX < SIZE_MOD) by (by vm_compute). unfold BLOCK_SIZE. lia.
Qed.

Lemma allocate_memory_wf st size ptr st' :
  heap_wf st -> size + BLOCK_SIZE <= INTPTR_MAX ->
  allocate_memory size st = Done ptr st' -> heap_wf st'.
Proof.
  intros Hwf Hsmall. apply allocate_memory_wf_typed; [done|by apply small_typed].
Qed.

(** The block a call returns lies in the data segment. *)
Lemma allocate_memory_mapped st size ptr st' :
  heap_wf st -> 0 < size < SIZE_MOD ->
  allocate_memory size st = Done ptr st' -> ptr <> NULL ->
  mapped st' ptr size = true.
Proof.
  intros Hwf [Hsize Htyped] Halloc Hptr.
  destruct (wf_chain _ Hwf) as [l Hc].
  destruct (allocate_memory_frame _ _ _ _ _ Hwf Hc Hsize Halloc Hptr)
    as (_ & bq & Hbq & Hsz & _).
  pose proof (allocate_memory_wf_typed _ _ _ _ Hwf Htyped Halloc) as Hwf'.
  destruct (wf_inside _ Hwf' _ _ Hbq) as (Hlo & _ & Hend).
  unfold mapped, block_end, retrieve_block_ptr, BLOCK_SIZE in *.
  apply andb_true_iff. rewrite !Z.leb_le. lia.
Qed.

(** The copy of a moving [reallocate_memory] stays in the data segment. *)
Lemma reallocate_memory_copy_mapped st st1 l ptr size new_ptr b :
  heap_wf st -> chain (blocks st) (base st) l ->
  blocks st !! retrieve_block_ptr ptr = Some b -> blk_free b = 0 ->
  blk_size b < size < SIZE_MOD ->
  allocate_memory size st = Done new_ptr st1 -> new_ptr <> NULL ->
  mapped st1 ptr (blk_size b) = true /\ mapped st1 new_ptr (blk_size b) = true.
Proof.
  intros Hwf Hc Hb Hfree [Hlt Htyped] Halloc Hnew.
  destruct (wf_inside _ Hwf _ _ Hb) as (_ & Hpos & _).
  assert (0 < size) as Hsize by lia.
  pose proof (allocate_memory_wf_typed _ _ _ _ Hwf Htyped Halloc) as Hwf1.
  pose proof (allocate_memory_mapped _ _ _ _ Hwf (conj Hsize Htyped) Halloc Hnew) as Hm.
  destruct (allocate_memory_frame _ _ _ _ _ Hwf Hc Hsize Halloc Hnew)
    as (_ & bq & _ & _ & Hframe).
  destruct (Hframe _ _ Hb Hfree) as (_ & (b' & Hb' & Hs' & _) & _).
  destruct (wf_inside _ Hwf1 _ _ Hb') as (Hlo & _ & Hend).
  unfold mapped, block_end, retrieve_block_ptr, BLOCK_SIZE in *.
  apply andb_true_iff in Hm as [Hm1%Z.leb_le Hm2%Z.leb_le].
  rewrite !andb_true_iff, !Z.leb_le. lia.
Qed.

Lemma release_memory_wf st ptr st' :
  heap_wf st -> release_memory ptr st = Done tt st' -> heap_wf st'.
Proof.
  intros Hwf. unfold release_memory. destruct (ptr =? NULL); [by intros [= <-]|].
  unfold bind, load_block, assert.
  destruct (blocks st !! retrieve_block_ptr ptr) as [b|] eqn:Hb; [|done].
  destruct (blk_free b =? 0); [|done]. destruct (_ || _); [|done].
  rewrite (store_block_update _ _ _ _ Hb).
  intros [= <-]. by eapply heap_wf_update.
Qed.

(** On a well-formed heap every call with a pointer the program holds (or
    [NULL]) and a size whose growth does not wrap round returns, and the
    heap is well-formed again. *)
Lemma perform_returns st r live :
  heap_wf st -> all_live st live -> request_ok live r = true -> request_small r ->
  exists res st', perform r st = Done res st' /\ heap_wf st'.
Proof.
  intros Hwf Hlive Hok Hsmall. destruct (wf_chain _ Hwf) as [l Hc].
  assert (forall size, size + BLOCK_SIZE <= INTPTR_MAX ->
            exists res st', allocate_memory size st = Done res st' /\ heap_wf st') as Halloc.
  { intros size Hs. destruct (Z.leb_spec size 0) as [Hle|Hsize].
    - exists NULL, st. unfold allocate_memory. destruct (Z.leb_spec size 0); [done|lia].
    - destruct (allocate_memory_cases st l size Hwf Hc Hsize) as
        [(_ & _ & Heq)|[(_ & Hrej & Heq)|
         [(pre & a & post & b & -> & _ & Hb & _ & Heq)|(_ & [_ Hroom] & _)]]];
        [ | | |rewrite growth_exact in Hroom by lia; lia];
        do 2 eexists; (split; [exact Heq|]); eapply allocate_memory_wf; eauto. }
  destruct r as [size|n k|ptr size|ptr]; simpl in *.
  - by apply Halloc.
  - rewrite zero_allocate_spec. destruct (Halloc _ Hsmall) as (q & st1 & Hq & Hwf1).
    rewrite Hq. pose proof (wrap_range (n * k)) as Hrange.
    destruct (Z.eqb_spec q NULL); [by do 2 eexists|].
    destruct (Z.ltb_spec 0 (wrap (n * k))) as [Hpos|Hzero].
    + rewrite (allocate_memory_mapped _ _ _ _ Hwf (conj Hpos (proj2 Hrange)) Hq) by done.
      do 2 eexists. split; [done|]. by apply heap_wf_set_bytes.
    + do 2 eexists. split; [done|]. by apply heap_wf_set_bytes.
  - destruct (Z.eqb_spec ptr NULL) as [->|Hp]; [by apply Halloc|].
    simpl in Hok. apply bool_decide_eq_true in Hok.
    destruct (Hlive _ Hok) as (b & Hb & Hfree & Htag).
    destruct (Z.le_gt_cases size (blk_size b)) as [Hle|Hgt].
    { exists ptr, st. rewrite (reallocate_memory_unfold _ _ _ _ Hp Hb).
      destruct (Z.leb_spec size (blk_size b)); [done|lia]. }
    destruct (Halloc _ Hsmall) as (q & st1 & Hq & Hwf1).
    destruct (Z.eq_dec q NULL) as [->|Hqn].
    { exists NULL, st1. rewrite (reallocate_memory_unfold _ _ _ _ Hp Hb), Hq.
      destruct (Z.leb_spec size (blk_size b)); [lia|done]. }
    assert (blk_size b < size) as Hlt by lia.
    destruct (reallocate_memory_moves st st1 l ptr size q b Hwf Hc Hp Hb Hfree Htag Hlt Hq Hqn)
      as (b' & Hb' & Hs' & _ & _ & _ & Hre).
    do 2 eexists. split; [exact Hre|].
    eapply heap_wf_update; [by apply heap_wf_set_bytes|exact Hb'|done..].
  - unfold bind. destruct (Z.eqb_spec ptr NULL) as [->|Hp].
    { exists NULL, st. done. }
    simpl in Hok. apply bool_decide_eq_true in Hok.
    destruct (Hlive _ Hok) as (b & Hb & Hfree & Htag).
    rewrite (release_memory_spec _ _ _ Hp Hb).
    apply in_use_tagb_spec in Htag. rewrite Hfree, Htag. simpl.
    do 2 eexists. split; [done|]. by eapply heap_wf_update.
Qed.

(** A program whose growth requests never wrap round keeps the heap
    well-formed for as long as its calls return. *)
Lemma run_wf rs : forall st live live' st',
  heap_wf st -> all_live st live -> Forall request_small rs ->
  run rs live st = Done live' st' -> heap_wf st'.
Proof.
  induction rs as [|r rs IH]; intros st live live' st' Hwf Hlive Hsmall; simpl.
  - by intros [= _ <-].
  - apply Forall_cons in Hsmall as [Hr Hrs].
    destruct (request_ok live r) eqn:Hok; [|done].
    destruct (perform_returns st r live Hwf Hlive Hok Hr) as (res & st1 & Hperf & Hwf1).
    unfold bind. rewrite Hperf. apply IH; [done| |done].
    by eapply perform_keeps.
Qed.

Lemma empty_heap_wf lo hi :
  0 < lo -> lo <= hi -> hi < SBRK_FAILED -> heap_wf (empty_heap lo hi).
Proof.
  intros Hlo Hhi Hmax. split; simpl.
  - unfold limits_ok. simpl. lia.
  - by exists [].
  - intros a b Hb. by rewrite lookup_empty in Hb.
  - intros a1 b1 a2 b2 Hb. by rewrite lookup_empty in Hb.
Qed.

Lemma two_blocks_wf lo hi top root a1 b1 a2 b2 m :
  0 < lo -> top <= hi -> hi < SBRK_FAILED ->
  lo <= a1 -> 0 < blk_size b1 -> block_end a1 b1 <= a2 ->
  0 < blk_size b2 -> block_end a2 b2 <= top ->
  (exists l, chain (<[a1 := b1]> {[a2 := b2]}) root l) ->
  heap_wf (Heap lo hi top root (<[a1 := b1]> {[a2 := b2]}) m).
Proof.
  intros Hlo Htop Hhi H1 Hs1 He1 Hs2 He2 Hc.
  assert (a1 < a2 /\ a2 < top) as [H12 H2t] by (unfold block_end, BLOCK_SIZE in *; lia).
  split; unfold limits_ok; cbn [brk_lo brk_hi brk base blocks].
  - unfold block_end, BLOCK_SIZE in *. lia.
  - done.
  - intros a b [[<- <-]|[_ [<- <-]%lookup_singleton_Some]]%lookup_insert_Some;
      unfold block_end, BLOCK_SIZE in *; lia.
  - intros x1 c1 x2 c2
      [[<- <-]|[_ [<- <-]%lookup_singleton_Some]]%lookup_insert_Some
      [[<- <-]|[_ [<- <-]%lookup_singleton_Some]]%lookup_insert_Some;
      unfold block_end, BLOCK_SIZE in *; lia.
Qed.

Lemma demo_heap_chain : chain (blocks demo_heap) (base demo_heap) [4096; 4130].
Proof. two_blocks_chain. Qed.

Lemma demo_heap_wf : heap_wf demo_heap.
Proof.
  apply two_blocks_wf; try by vm_compute. exists [4096; 4130]. apply demo_heap_chain.
Qed.

Lemma busy_heap_chain hi : chain (blocks (busy_heap hi)) (base (busy_heap hi)) [4096; 4130].
Proof. two_blocks_chain. Qed.

Lemma busy_heap_wf hi : 4174 <= hi -> hi < SBRK_FAILED -> heap_wf (busy_heap hi).
Proof.
  intros H1 H2. apply two_blocks_wf; try done; try by vm_compute.
  exists [4096; 4130]. apply (busy_heap_chain hi).
Qed.

Lemma used_heap_wf : heap_wf used_heap.
Proof.
  split.
  - by vm_compute.
  - exists [4096]. simpl. repeat split; try done.
    eexists. split; [by vm_compute|done].
  - cbn [blocks brk brk_lo used_heap].
    intros a b [<- <-]%lookup_singleton_Some. by vm_compute.
  - cbn [blocks used_heap].
    intros a1 b1 a2 b2 [<- <-]%lookup_singleton_Some [<- <-]%lookup_singleton_Some. lia.
Qed.

(** ** The search finds the first fit *)

(** The test of the search loop, on the fields of the header. *)
Lemma fits_true size b :
  fits size b = true <-> blk_free b <> 0 /\ size <= blk_size b.
Proof.
  unfold fits. rewrite andb_true_iff, negb_true_iff, Z.eqb_neq, Z.leb_le. tauto.
Qed.

Lemma fits_false size b :
  fits size b = false <-> blk_free b = 0 \/ blk_size b < size.
Proof.
  unfold fits. rewrite andb_false_iff, negb_false_iff, Z.eqb_eq, Z.leb_gt. tauto.
Qed.

Lemma nofit_fields h size l :
  Forall (fun x => fits_at h size x = false) l <->
  (forall x c, x ∈ l -> h !! x = Some c -> blk_free c = 0 \/ blk_size c < size).
Proof.
  rewrite Forall_forall. unfold fits_at. split.
  - intros H x c Hx Hc. specialize (H x Hx). rewrite Hc in H. by apply fits_false.
  - intros H x Hx. destruct (h !! x) as [c|] eqn:Hc; [|done].
    apply fits_false. eauto.
Qed.

(** C1.  On a list of blocks that starts at [base] and ends, the search
    returns the first block in list order whose [free] field is not zero
    and whose [size] field is at least the request, together with the
    block visited just before it: every block before it in the list is in
    use ([free] is zero) or too small.  When every block of the list is in
    use or too small the search returns [NULL] and the out-parameter holds
    the final block of the list (on an empty list, which has no final
    block, the out-parameter is left as the caller set it).  The heap is
    not modified. *)
Theorem locate_free_block_first_fit (st : heap) (l : list Z) (last0 size : Z) :
  chain (blocks st) (base st) l ->
  (exists pre a post b,
      l = pre ++ a :: post /\
      (forall x c, x ∈ pre -> blocks st !! x = Some c ->
         blk_free c = 0 \/ blk_size c < size) /\
      a <> NULL /\
      blocks st !! a = Some b /\ blk_free b <> 0 /\ size <= blk_size b /\
      locate_free_block last0 size st
        = Done (a, default last0 (last pre)) st)
  \/ ((forall x c, x ∈ l -> blocks st !! x = Some c ->
         blk_free c = 0 \/ blk_size c < size) /\
      locate_free_block last0 size st
        = Done (NULL, default last0 (last l)) st).
Proof.
  intros Hc. rewrite (locate_free_block_chain _ _ _ _ Hc).
  destruct (first_fit_split (blocks st) size l last0)
    as [(pre & a & post & -> & Hpre & Ha & Heq)|[Hall Heq]].
  - left. unfold fits_at in Ha.
    destruct (blocks st !! a) as [b|] eqn:Hb; [|done].
    apply fits_true in Ha as [Hfree Hsize].
    exists pre, a, post, b. split; [done|].
    split; [by apply nofit_fields|].
    split; [eapply chain_elem_of; [exact Hc|]; apply elem_of_app; right; by left|].
    do 3 (split; [done|]). by rewrite Heq.
  - right. split; [by apply nofit_fields|]. by rewrite Heq.
Qed.

(** ** What [allocate_memory] returns *)

(** For a size whose growth request [size + BLOCK_SIZE] does not exceed
    [INTPTR_MAX], on a well-formed heap: [allocate_memory] returns; it
    returns [NULL] exactly when the size is zero or every block is in use
    or too small and the break cannot rise by [size + BLOCK_SIZE]; any
    other result is the address just past the header of a block in use
    whose recorded size is at least the request and whose payload lies
    inside the data segment; and the heap is well-formed again. *)
Lemma allocate_memory_small (st : heap) (l : list Z) (size : Z) :
  heap_wf st -> chain (blocks st) (base st) l ->
  0 <= size -> size + BLOCK_SIZE <= INTPTR_MAX ->
  exists ptr st',
    allocate_memory size st = Done ptr st' /\ heap_wf st' /\
    (ptr = NULL <->
       size = 0 \/
       ((forall x c, x ∈ l -> blocks st !! x = Some c ->
           blk_free c = 0 \/ blk_size c < size) /\
        brk_hi st < brk st + size + BLOCK_SIZE)) /\
    (ptr <> NULL ->
       exists b,
         blocks st' !! retrieve_block_ptr ptr = Some b /\
         size <= blk_size b /\ blk_free b = 0 /\ in_use_tag (blk_debug_flag b) /\
         in_segment st' ptr (blk_size b)).
Proof.
  intros Hwf Hc Hge Hsmall. pose proof (heap_wf_limits _ Hwf) as Hlim.
  pose proof Hlim as (Hpos & Hlo & Hhi & Hmax).
  destruct (Z.eq_dec size 0) as [->|Hnz].
  { exists NULL, st. split; [done|]. split; [done|]. split; [|done]. split; [by left|done]. }
  assert (grow_rejected st size = true <-> brk_hi st < brk st + size + BLOCK_SIZE) as Hrejected.
  { rewrite grow_rejected_small by done. apply Z.ltb_lt. }
  destruct (allocate_memory_cases st l size Hwf Hc) as
    [(Hall & Hrej & Heq)|[(Hall & [Hrej Hroom] & Heq)|
     [(pre & a & post & b & -> & Hpre & Hb & Hfit & Heq)|(_ & [_ Hroom] & _)]]];
    [lia| | | |rewrite growth_exact in Hroom by lia; lia].
  - exists NULL, st. split; [done|]. split; [done|]. split; [|done]. split; [|done].
    intros _. right. split; [by apply nofit_fields|by apply Hrejected].
  - exists (brk st + BLOCK_SIZE), (appended st l size). split; [done|].
    assert (heap_wf (appended st l size)) as Hwf'
      by (apply heap_wf_appended; try done; lia).
    split; [done|].
    assert (brk st + BLOCK_SIZE <> NULL) by (unfold BLOCK_SIZE, NULL; lia).
    split.
    { split; [done|]. intros [?|[_ Hr]]; [done|].
      apply Hrejected in Hr. congruence. }
    intros _. exists (MemBlock size NULL 0 TAG_EXTENDED).
    unfold retrieve_block_ptr. replace (brk st + BLOCK_SIZE - BLOCK_SIZE) with (brk st) by lia.
    split; [apply lookup_insert_eq|]. simpl.
    split; [lia|]. split; [done|]. split; [by left|].
    unfold in_segment; simpl; rewrite growth_exact by lia; lia.
  - destruct (wf_inside _ Hwf _ _ Hb) as (Ha1 & Ha2 & Ha3).
    apply fits_true in Hfit as [Hfree Hle].
    exists (a + BLOCK_SIZE), (reused st a b). split; [done|].
    split; [by eapply heap_wf_update|].
    assert (a + BLOCK_SIZE <> NULL) by (unfold BLOCK_SIZE, NULL; lia).
    split.
    { split; [done|]. intros [?|[Hall _]]; [done|].
      destruct (Hall a b) as [?|?]; [|done|done|lia].
      apply elem_of_app. right. by left. }
    intros _. exists (MemBlock (blk_size b) (blk_next b) 0 TAG_REUSED).
    unfold retrieve_block_ptr. replace (a + BLOCK_SIZE - BLOCK_SIZE) with a by lia.
    split; [apply lookup_insert_eq|]. simpl.
    split; [done|]. split; [done|]. split; [by right|].
    unfold in_segment, block_end in *; simpl; lia.
Qed.

(** C2.  The growth request is [size + BLOCK_SIZE] computed in [size_t],
    unchecked.  In a process that has not allocated yet, whose break is at
    4096 and may rise to 8192, a request of [2^64 - 8] bytes asks [sbrk]
    for 16 bytes.  [sbrk] grants them, and the 24 bytes of the header,
    written at the old break, end 8 bytes past the new one: the call does
    not return a block of [2^64 - 8] bytes, and it does not return [NULL]
    either.  A request of [2^64 - 24] bytes asks for no growth at all, and
    a request of [2^64 - 5024] bytes, in a process whose heap starts at
    65536, asks for 5000 bytes less, which [sbrk] answers with the old
    break, the break unmoved: in both cases the header is written at the
    break itself, outside the data segment. *)
Theorem allocate_memory_wrapped_growth :
  let st := empty_heap 4096 8192 in
  growth (SIZE_MOD - 8) = 16 /\
  sbrk (growth (SIZE_MOD - 8)) st = Done 4096 (set_brk 4112 st) /\
  mapped (set_brk 4112 st) 4096 BLOCK_SIZE = false /\
  allocate_memory (SIZE_MOD - 8) st = Fault /\
  growth (SIZE_MOD - 24) = 0 /\
  sbrk (growth (SIZE_MOD - 24)) st = Done 4096 st /\
  allocate_memory (SIZE_MOD - 24) st = Fault /\
  growth (SIZE_MOD - 5024) = - 5000 /\
  sbrk (growth (SIZE_MOD - 5024)) (empty_heap 65536 131072)
    = Done 65536 (empty_heap 65536 131072) /\
  mapped (empty_heap 65536 131072) 65536 BLOCK_SIZE = false /\
  allocate_memory (SIZE_MOD - 5024) (empty_heap 65536 131072) = Fault.
Proof. by vm_compute. Qed.

(** ** Reuse after release *)

(** C3.  Let [ptr] be the user pointer of a block in use of the list, of
    recorded size [c].  Then [release_memory(ptr)] returns, and if after it
    every block of the list before this one is in use ([free] is zero) or
    smaller than a size [0 < s <= c], [allocate_memory(s)] returns [ptr]
    itself. *)
Theorem release_then_allocate_same_address
    (st : heap) (pre post : list Z) (ptr size : Z) (b : mem_block) :
  chain (blocks st) (base st) (pre ++ retrieve_block_ptr ptr :: post) ->
  ptr <> NULL ->
  blocks st !! retrieve_block_ptr ptr = Some b ->
  blk_free b = 0 -> in_use_tag (blk_debug_flag b) ->
  0 < size <= blk_size b ->
  exists st1,
    release_memory ptr st = Done tt st1 /\
    ((forall x c, x ∈ pre -> blocks st1 !! x = Some c ->
        blk_free c = 0 \/ blk_size c < size) ->
     exists st2, allocate_memory size st1 = Done ptr st2).
Proof.
  intros Hc Hp Hb Hfree Htag [Hpos Hle].
  rewrite (release_memory_spec _ _ _ Hp Hb).
  apply in_use_tagb_spec in Htag. rewrite Hfree, Htag. simpl.
  exists (released st ptr b). split; [done|]. intros Hpre.
  apply nofit_fields in Hpre.
  set (b1 := MemBlock (blk_size b) (blk_next b) 1 TAG_FREED).
  assert (blocks (released st ptr b) !! retrieve_block_ptr ptr = Some b1) as Hb1
    by apply lookup_insert_eq.
  exists (reused (released st ptr b) (retrieve_block_ptr ptr) b1).
  assert (ptr = retrieve_block_ptr ptr + BLOCK_SIZE) as Hptr
    by (unfold retrieve_block_ptr; lia).
  rewrite Hptr at 2.
  eapply allocate_memory_reuse; eauto.
  - eapply chain_ext; [exact Hc|]. intros x c Hx Hxc. simpl.
    destruct (Z.eq_dec x (retrieve_block_ptr ptr)) as [->|Hne].
    + rewrite lookup_insert_eq. exists b1. split; [done|]. simpl. congruence.
    + rewrite lookup_insert_ne by done. eauto.
  - unfold fits, b1. simpl. by apply Z.leb_le.
Qed.

(** ** Reallocation *)

(** C4.  When the recorded size of the block of [ptr] covers the new size,
    [reallocate_memory] returns [ptr] and leaves the whole heap, so the
    header and the payload of the block too, exactly as it was. *)
Theorem reallocate_memory_in_place (st : heap) (ptr size : Z) (b : mem_block) :
  ptr <> NULL ->
  blocks st !! retrieve_block_ptr ptr = Some b ->
  size <= blk_size b ->
  reallocate_memory ptr size st = Done ptr st.
Proof.
  intros Hp Hb Hle. rewrite (reallocate_memory_unfold _ _ _ _ Hp Hb).
  destruct (Z.leb_spec size (blk_size b)); [done|lia].
Qed.

(** C5.  On a well-formed heap, let [ptr] be the user pointer of a block in
    use of recorded size [c], and let the new size exceed [c].  If the
    inner [allocate_memory] succeeds with [new_ptr], then
    [reallocate_memory] returns [new_ptr], which differs from [ptr]; the
    first [c] bytes at [new_ptr] are the bytes that were at [ptr] when the
    call was made; and the old block ends up free, tagged as freed. *)
Theorem reallocate_memory_grows
    (st st1 : heap) (l : list Z) (ptr size new_ptr : Z) (b : mem_block) :
  heap_wf st -> chain (blocks st) (base st) l ->
  ptr <> NULL ->
  blocks st !! retrieve_block_ptr ptr = Some b ->
  blk_free b = 0 -> in_use_tag (blk_debug_flag b) ->
  blk_size b < size ->
  allocate_memory size st = Done new_ptr st1 -> new_ptr <> NULL ->
  exists st',
    reallocate_memory ptr size st = Done new_ptr st' /\
    new_ptr <> ptr /\
    (forall i, 0 <= i < blk_size b ->
       bytes st' !! (new_ptr + i) = bytes st !! (ptr + i)) /\
    exists b',
      blocks st' !! retrieve_block_ptr ptr = Some b' /\
      blk_free b' = 1 /\ blk_debug_flag b' = TAG_FREED /\
      blk_size b' = blk_size b.
Proof.
  intros Hwf Hc Hp Hb Hfree Htag Hlt Halloc Hnew.
  destruct (wf_inside _ Hwf _ _ Hb) as (Ha1 & Ha2 & Ha3).
  destruct (reallocate_memory_moves _ _ _ _ _ _ _ Hwf Hc Hp Hb Hfree Htag Hlt Halloc Hnew)
    as (b' & Hb' & Hs' & Hbytes & Hdiff & Hsep & Heq).
  eexists. split; [exact Heq|]. split; [done|]. split.
  - intros i Hi. cbn [bytes released set_blocks set_bytes].
    rewrite copy_bytes_lookup by (rewrite Z2Nat.id by lia; done).
    rewrite Z2Nat.id by lia.
    destruct (decide (new_ptr <= new_ptr + i < new_ptr + blk_size b)); [|lia].
    rewrite Hbytes. f_equal. lia.
  - eexists. cbn [blocks released set_blocks set_bytes].
    split; [apply lookup_insert_eq|]. by simpl.
Qed.

(** C6.  On a well-formed heap, when the new size exceeds the recorded size
    of the block of [ptr] and the inner [allocate_memory] fails,
    [reallocate_memory] returns [NULL] and the heap is exactly the heap
    before the call: header and payload of the old block are untouched. *)
Theorem reallocate_memory_failure
    (st st1 : heap) (l : list Z) (ptr size : Z) (b : mem_block) :
  heap_wf st -> chain (blocks st) (base st) l ->
  ptr <> NULL ->
  blocks st !! retrieve_block_ptr ptr = Some b ->
  blk_size b < size ->
  allocate_memory size st = Done NULL st1 ->
  st1 = st /\ reallocate_memory ptr size st = Done NULL st.
Proof.
  intros Hwf Hc Hp Hb Hlt Halloc.
  destruct (wf_inside _ Hwf _ _ Hb) as (Ha1 & Ha2 & Ha3).
  pose proof (heap_wf_limits _ Hwf) as Hlim. pose proof Hlim as (Hpos & Hlo & Hhi & Hmax).
  assert (0 < size) as Hsize by lia.
  assert (st1 = st) as Hsame.
  { destruct (allocate_memory_cases st l size Hwf Hc Hsize) as
      [(_ & _ & Heq)|[(_ & _ & Heq)|
       [(pre & aq & post & bq & -> & _ & Hbq & _ & Heq)|(_ & _ & Heq)]]];
      rewrite Heq in Halloc.
    - by injection Halloc.
    - injection Halloc as Hnull _. unfold NULL, BLOCK_SIZE in *. lia.
    - injection Halloc as Hnull _.
      destruct (wf_inside _ Hwf _ _ Hbq) as (? & _). unfold NULL, BLOCK_SIZE in *. lia.
    - done. }
  split; [done|]. subst st1.
  rewrite (reallocate_memory_unfold _ _ _ _ Hp Hb), Halloc.
  destruct (Z.leb_spec size (blk_size b)); [lia|done].
Qed.

(** ** Zeroed allocation and its unchecked product *)

(** C7, as the code has it.  On a well-formed heap, when
    [zero_allocate(n, k)] succeeds the block returned is in use, its
    recorded size is at least [(n * k) mod 2^64], and each of the first
    [(n * k) mod 2^64] bytes of its payload is zero; these are [n * k]
    bytes whenever the product fits a [size_t]. *)
Theorem zero_allocate_zeroed
    (st st' : heap) (l : list Z) (elements element_size ptr : Z) :
  heap_wf st -> chain (blocks st) (base st) l ->
  zero_allocate elements element_size st = Done ptr st' -> ptr <> NULL ->
  (exists b, blocks st' !! retrieve_block_ptr ptr = Some b /\
             wrap (elements * element_size) <= blk_size b /\ blk_free b = 0) /\
  (forall i, 0 <= i < wrap (elements * element_size) ->
     bytes st' !! (ptr + i) = Some Byte.x00) /\
  (0 <= elements * element_size < SIZE_MOD ->
   forall i, 0 <= i < elements * element_size ->
     bytes st' !! (ptr + i) = Some Byte.x00).
Proof.
  intros Hwf Hc Hz Hp. rewrite zero_allocate_spec in Hz.
  pose proof (wrap_range (elements * element_size)) as Hrange.
  destruct (allocate_memory _ st) as [q st1| | |] eqn:Halloc; try done.
  destruct (Z.eqb_spec q NULL) as [Hq|Hq].
  { injection Hz as -> _. done. }
  destruct (_ && _); [done|].
  injection Hz as -> <-.
  assert (0 < wrap (elements * element_size)) as Hpos.
  { destruct (Z.leb_spec (wrap (elements * element_size)) 0) as [Hle|]; [|done].
    unfold allocate_memory in Halloc.
    destruct (Z.leb_spec (wrap (elements * element_size)) 0); [|lia].
    by injection Halloc as <- _. }
  destruct (allocate_memory_frame _ _ _ _ _ Hwf Hc Hpos Halloc Hp)
    as (_ & b & Hb & Hsz & _).
  assert (blk_free b = 0) as Hfree.
  { assert (all_live st ∅) as Hnone
      by (intros p' Hp'; by apply not_elem_of_empty in Hp').
    pose proof (allocate_memory_keeps _ _ _ _ _ Hnone Halloc) as Hkeep.
    destruct (Z.eqb_spec ptr NULL); [done|].
    destruct (Hkeep ptr) as (b0 & Hb0 & Hf0 & _);
      [apply elem_of_union_l; by apply elem_of_singleton|]. congruence. }
  assert (forall i, 0 <= i < wrap (elements * element_size) ->
            bytes (set_bytes (fill_bytes (bytes st1) ptr Byte.x00
                     (Z.to_nat (wrap (elements * element_size)))) st1) !! (ptr + i)
            = Some Byte.x00) as Hzero.
  { intros i Hi. cbn [bytes set_bytes]. rewrite fill_bytes_lookup, Z2Nat.id by lia.
    destruct (decide _); [done|lia]. }
  split; [by exists b|]. split; [done|].
  intros Hfit i Hi. apply Hzero. unfold wrap. rewrite Z.mod_small; done.
Qed.

(** C7 as stated fails: [zero_allocate(2^63 + 1, 2)] asks for
    [2^64 + 2] bytes; the product wraps round to 2, the free three-byte
    block is reused, two bytes are cleared and the third still holds a
    one. *)
Lemma zero_allocate_overflow_counterexample :
  ~ (forall st elements element_size ptr st',
       heap_wf st ->
       0 <= elements < SIZE_MOD -> 0 <= element_size < SIZE_MOD ->
       zero_allocate elements element_size st = Done ptr st' -> ptr <> NULL ->
       forall i, 0 <= i < elements * element_size ->
         bytes st' !! (ptr + i) = Some Byte.x00).
Proof.
  intros H.
  pose proof used_heap_wf as Hwf.
  pose proof (H used_heap (2 ^ 63 + 1) 2 4120
                (Heap 4096 8192 4123 4096
                   {[ 4096 := MemBlock 3 NULL 0 TAG_REUSED ]}
                   {[ 4120 := Byte.x00; 4121 := Byte.x00; 4122 := Byte.x01 ]})
                Hwf) as Hz.
  specialize (Hz ltac:(by vm_compute) ltac:(by vm_compute)).
  assert (bytes (Heap 4096 8192 4123 4096
                   {[ 4096 := MemBlock 3 NULL 0 TAG_REUSED ]}
                   {[ 4120 := Byte.x00; 4121 := Byte.x00; 4122 := Byte.x01 ]}) !! (4120 + 2)
          = Some Byte.x00) as Hbad.
  { apply Hz; [by vm_compute|done|lia]. }
  revert Hbad. by vm_compute.
Qed.

(** C8.  On a well-formed heap [zero_allocate(n, k)] works with
    [(n * k) mod 2^64] and with nothing else: two calls whose products
    agree modulo [2^64] give the same outcome, whatever the true products
    are; the allocator is asked for exactly this many bytes, and when it
    returns a block exactly this many bytes at the pointer returned are set
    to zero, every other byte and the rest of the heap being as
    [allocate_memory] left them.  No call is refused for an overflowing
    product. *)
Theorem zero_allocate_unchecked_product (st : heap) (elements element_size : Z) :
  heap_wf st ->
  let total := (elements * element_size) mod 2 ^ 64 in
  (forall n k, (n * k) mod 2 ^ 64 = total ->
     zero_allocate n k st = zero_allocate elements element_size st) /\
  match allocate_memory total st with
  | Done ptr st1 =>
      exists st',
        zero_allocate elements element_size st = Done ptr st' /\
        blocks st' = blocks st1 /\ brk st' = brk st1 /\ base st' = base st1 /\
        forall a, bytes st' !! a =
          if decide (ptr <> NULL /\ ptr <= a < ptr + total)
          then Some Byte.x00 else bytes st1 !! a
  | AssertFail => zero_allocate elements element_size st = AssertFail
  | Fault => zero_allocate elements element_size st = Fault
  | Diverge => zero_allocate elements element_size st = Diverge
  end.
Proof.
  intros Hwf total. split.
  - intros n k Hnk. rewrite !zero_allocate_spec. unfold wrap, SIZE_MOD, WORD.
    fold total. by rewrite Hnk.
  - assert (0 <= total < SIZE_MOD) as Hrange by apply wrap_range.
    rewrite zero_allocate_spec. unfold wrap, SIZE_MOD, WORD. fold total.
    destruct (allocate_memory total st) as [ptr st1| | |] eqn:Halloc; try done.
    destruct (Z.eqb_spec ptr NULL) as [Hq|Hq].
    + exists st1. repeat split; try done. intros a.
      destruct (decide _) as [[? _]|]; done.
    + assert ((0 <? total) && negb (mapped st1 ptr total) = false) as ->.
      { destruct (Z.ltb_spec 0 total) as [Hpos|]; [|done].
        by rewrite (allocate_memory_mapped _ _ _ _ Hwf (conj Hpos (proj2 Hrange)) Halloc). }
      eexists. split; [done|]. repeat split; try done. intros a.
      cbn [bytes set_bytes]. rewrite fill_bytes_lookup, Z2Nat.id by lia.
      destruct (decide (ptr <= a < ptr + total)), (decide (ptr <> NULL /\ ptr <= a < ptr + total));
        try done; tauto.
Qed.

(** ** Release *)

(** C9.  Releasing [NULL] returns at once and changes nothing.  Releasing
    the user pointer of a block whose [free] is 0 and whose tag is one of
    the two in-use values returns, with [free] set to 1 and the tag set to
    the freed value, the size and the link kept, and nothing else changed.
    The call dies on an assertion exactly when the block is already free or
    its tag is not an in-use value. *)
Theorem release_memory_behaviour (st : heap) (ptr : Z) (b : mem_block) :
  release_memory NULL st = Done tt st /\
  (ptr <> NULL -> blocks st !! retrieve_block_ptr ptr = Some b ->
   (blk_free b = 0 /\ in_use_tag (blk_debug_flag b) ->
    exists st',
      release_memory ptr st = Done tt st' /\
      blocks st' !! retrieve_block_ptr ptr
        = Some (MemBlock (blk_size b) (blk_next b) 1 TAG_FREED) /\
      (forall a, a <> retrieve_block_ptr ptr -> blocks st' !! a = blocks st !! a) /\
      bytes st' = bytes st /\ brk st' = brk st /\ base st' = base st) /\
   (release_memory ptr st = AssertFail <->
      blk_free b <> 0 \/ ~ in_use_tag (blk_debug_flag b))).
Proof.
  split; [done|]. intros Hp Hb. rewrite (release_memory_spec _ _ _ Hp Hb).
  split.
  - intros [Hfree Htag]. apply in_use_tagb_spec in Htag.
    rewrite Hfree, Htag. simpl. exists (released st ptr b).
    split; [done|]. simpl. split; [apply lookup_insert_eq|].
    split; [|done]. intros a Ha. by apply lookup_insert_ne.
  - destruct (Z.eqb_spec (blk_free b) 0) as [Hfree|Hfree]; simpl.
    + destruct (in_use_tagb (blk_debug_flag b)) eqn:Htag.
      * apply in_use_tagb_spec in Htag. split; [done|]. intros [?|?]; done.
      * split; [|done]. intros _. right. rewrite <- in_use_tagb_spec. congruence.
    + split; [|done]. intros _. by left.
Qed.

(** ** The invariant of user pointers *)

Lemma run_all_live (rs : list request) :
  forall (st st' : heap) (live live' : gset Z),
  all_live st live -> run rs live st = Done live' st' -> all_live st' live'.
Proof.
  induction rs as [|r rs IH]; intros st st' live live' Hlive; simpl.
  - intros [= <- <-]. exact Hlive.
  - destruct (request_ok live r) eqn:Hok; [|done].
    unfold bind. destruct (perform r st) as [res st1| | |] eqn:Hperf; try done.
    apply IH. by eapply perform_keeps.
Qed.

(** On a well-formed heap, let each pointer the program holds be the user
    pointer of a block whose [free] is 0 and whose tag is one of the two
    in-use values.  After any sequence of calls that return and whose
    growth requests do not wrap round, the heap is well-formed and the same
    is true of each pointer the program then holds, that is each pointer
    returned by a call and not released since. *)
Lemma run_keeps_live (rs : list request) (st st' : heap) (live live' : gset Z) :
  heap_wf st -> all_live st live -> Forall request_small rs ->
  run rs live st = Done live' st' ->
  heap_wf st' /\
  forall p, p ∈ live' ->
    exists b, blocks st' !! retrieve_block_ptr p = Some b /\
              blk_free b = 0 /\
              (blk_debug_flag b = TAG_EXTENDED \/ blk_debug_flag b = TAG_REUSED).
Proof.
  intros Hwf Hlive Hsmall Hrun. split.
  - by eapply run_wf.
  - by eapply run_all_live.
Qed.

(** C10.  The invariant holds as long as the headers do not overlap, and
    the unchecked growth request lets them.  In a process that has not
    allocated yet, whose break is at 4096, [allocate_memory(2^64 - 8)]
    moves the break by 16 bytes only, to 4112, and writes its 24-byte
    header at 4096.  The header of the next block lies where [sbrk(0)] then
    says, at 4112: inside the first header, on its fields [free] and
    [debug_flag].  The first header does not lie in the data segment, and
    the two calls have no defined result. *)
Theorem run_wrapped_growth_overlaps :
  let st := empty_heap 4096 8192 in
  sbrk (growth (SIZE_MOD - 8)) st = Done 4096 (set_brk 4112 st) /\
  sbrk 0 (set_brk 4112 st) = Done 4112 (set_brk 4112 st) /\
  4096 + 16 = 4112 /\ 4112 < 4096 + BLOCK_SIZE /\
  run [Allocate (SIZE_MOD - 8); Allocate 10] ∅ st = Fault.
Proof. by vm_compute. Qed.

(** ** The theorems at work on the example heaps *)

(** A search for 5 bytes in [demo_heap] passes the first block, which is in
    use, and stops at the second, which is free and holds 20 bytes. *)
Lemma locate_free_block_first_fit_witness :
  locate_free_block 4096 5 demo_heap = Done (4130, 4096) demo_heap.
Proof.
  destruct (locate_free_block_first_fit demo_heap [4096; 4130] 4096 5)
    as [(pre & a & post & b & Hl & Hpre & Ha & Hb & Hfree & Hsize & Heq)|[Hall Heq]].
  - two_blocks_chain.
  - destruct pre as [|p [|p' pre]]; simpl in Hl.
    + injection Hl as <- <-. vm_compute in Hb. injection Hb as <-.
      exfalso. apply Hfree. reflexivity.
    + injection Hl as <- <- <-. exact Heq.
    + injection Hl as _ _ Hl. destruct pre; discriminate Hl.
  - exfalso.
    destruct (Hall 4130 (MemBlock 20 NULL 1 TAG_FREED)) as [Hfree|Hsize].
    + apply elem_of_cons. right. apply elem_of_cons. by left.
    + reflexivity.
    + discriminate Hfree.
    + simpl in Hsize. lia.
Defined.

(** Releasing the second block of [busy_heap] and asking for 8 bytes gives
    the block back: the block before it in the list is in use. *)
Lemma release_then_allocate_same_address_witness :
  exists st1 st2,
    release_memory 4154 (busy_heap 8192) = Done tt st1 /\
    allocate_memory 8 st1 = Done 4154 st2.
Proof.
  destruct (release_then_allocate_same_address
              (busy_heap 8192) [4096] [] 4154 8 (MemBlock 20 NULL 0 TAG_REUSED))
    as (st1 & Hrel & Halloc).
  - two_blocks_chain.
  - by vm_compute.
  - by vm_compute.
  - reflexivity.
  - right. reflexivity.
  - simpl. lia.
  - destruct Halloc as [st2 Hst2].
    + intros x c Hx Hc. apply list_elem_of_singleton in Hx. subst x.
      vm_compute in Hrel. injection Hrel as <-.
      vm_compute in Hc. injection Hc as <-. left. reflexivity.
    + exists st1, st2. split; [exact Hrel|exact Hst2].
Defined.

(** Shrinking the first block of [busy_heap] to 7 bytes. *)
Lemma reallocate_memory_in_place_witness :
  reallocate_memory 4120 7 (busy_heap 8192) = Done 4120 (busy_heap 8192).
Proof.
  apply (reallocate_memory_in_place
           (busy_heap 8192) 4120 7 (MemBlock 10 4130 0 TAG_EXTENDED)).
  - by vm_compute.
  - by vm_compute.
  - simpl. lia.
Defined.

(** Growing the first block of [busy_heap] to 15 bytes: a new block is
    carved at the break and the two bytes written at 4120 are found again
    at 4198. *)
Lemma reallocate_memory_grows_witness :
  exists st',
    reallocate_memory 4120 15 (busy_heap 8192) = Done 4198 st' /\
    4198 <> 4120 /\
    (forall i, 0 <= i < 10 ->
       bytes st' !! (4198 + i) = bytes (busy_heap 8192) !! (4120 + i)) /\
    exists b',
      blocks st' !! retrieve_block_ptr 4120 = Some b' /\
      blk_free b' = 1 /\ blk_debug_flag b' = TAG_FREED /\
      blk_size b' = 10.
Proof.
  eapply (reallocate_memory_grows
            (busy_heap 8192) _ [4096; 4130] 4120 15 4198
            (MemBlock 10 4130 0 TAG_EXTENDED)).
  - apply two_blocks_wf; try (by vm_compute).
    exists [4096; 4130]. two_blocks_chain.
  - two_blocks_chain.
  - by vm_compute.
  - by vm_compute.
  - reflexivity.
  - left. reflexivity.
  - simpl. lia.
  - vm_compute. reflexivity.
  - by vm_compute.
Defined.

(** The same call in a process whose break cannot rise: the inner
    allocation fails and nothing changes. *)
Lemma reallocate_memory_failure_witness :
  busy_heap 4174 = busy_heap 4174 /\
  reallocate_memory 4120 15 (busy_heap 4174) = Done NULL (busy_heap 4174).
Proof.
  apply (reallocate_memory_failure
           (busy_heap 4174) (busy_heap 4174) [4096; 4130] 4120 15
           (MemBlock 10 4130 0 TAG_EXTENDED)).
  - apply two_blocks_wf; try (by vm_compute).
    exists [4096; 4130]. two_blocks_chain.
  - two_blocks_chain.
  - by vm_compute.
  - by vm_compute.
  - simpl. lia.
  - by vm_compute.
Defined.

(** [zero_allocate(5, 4)] in [demo_heap] reuses the free block and clears
    its 20 bytes, the two the program had written included. *)
Lemma zero_allocate_zeroed_witness :
  exists st',
    zero_allocate 5 4 demo_heap = Done 4154 st' /\
    (exists b, blocks st' !! retrieve_block_ptr 4154 = Some b /\
               wrap (5 * 4) <= blk_size b /\ blk_free b = 0) /\
    (forall i, 0 <= i < wrap (5 * 4) -> bytes st' !! (4154 + i) = Some Byte.x00) /\
    (0 <= 5 * 4 < SIZE_MOD ->
     forall i, 0 <= i < 5 * 4 -> bytes st' !! (4154 + i) = Some Byte.x00).
Proof.
  eexists. split; [vm_compute; reflexivity|].
  eapply (zero_allocate_zeroed demo_heap _ [4096; 4130] 5 4 4154).
  - apply two_blocks_wf; try (by vm_compute).
    exists [4096; 4130]. two_blocks_chain.
  - two_blocks_chain.
  - vm_compute. reflexivity.
  - by vm_compute.
Defined.

(** Releasing the first block of [busy_heap]. *)
Lemma release_memory_behaviour_witness :
  release_memory NULL (busy_heap 8192) = Done tt (busy_heap 8192) /\
  (exists st',
     release_memory 4120 (busy_heap 8192) = Done tt st' /\
     blocks st' !! retrieve_block_ptr 4120 = Some (MemBlock 10 4130 1 TAG_FREED)) /\
  release_memory 4120 (busy_heap 8192) <> AssertFail.
Proof.
  destruct (release_memory_behaviour
              (busy_heap 8192) 4120 (MemBlock 10 4130 0 TAG_EXTENDED))
    as [Hnull Hptr].
  destruct Hptr as [Hok Hfail]; [by vm_compute|by vm_compute|].
  split; [exact Hnull|]. split.
  - destruct Hok as (st' & Hrel & Hb & _); [split; [reflexivity|left; reflexivity]|].
    exists st'. split; [exact Hrel|exact Hb].
  - intros Habs. apply Hfail in Habs. destruct Habs as [Hfree|Htag].
    + apply Hfree. reflexivity.
    + apply Htag. left. reflexivity.
Defined.

(** [zero_allocate(2^63 + 1, 2)] is [zero_allocate(1, 2)]: both products
    are 2 modulo [2^64].  The free three-byte block of [used_heap] is
    taken, two bytes are cleared and the third is left as it was. *)
Lemma zero_allocate_unchecked_product_witness :
  zero_allocate (2 ^ 63 + 1) 2 used_heap = zero_allocate 1 2 used_heap /\
  exists st',
    zero_allocate (2 ^ 63 + 1) 2 used_heap = Done 4120 st' /\
    bytes st' !! 4121 = Some Byte.x00 /\ bytes st' !! 4122 = Some Byte.x01.
Proof.
  split.
  - destruct (zero_allocate_unchecked_product used_heap 1 2 used_heap_wf) as [Hsame _].
    apply Hsame. reflexivity.
  - destruct (zero_allocate_unchecked_product used_heap (2 ^ 63 + 1) 2 used_heap_wf)
      as [_ Hfill].
    destruct (allocate_memory _ used_heap) as [ptr st1| | |] eqn:Halloc;
      try (by vm_compute in Halloc).
    vm_compute in Halloc. injection Halloc as <- <-.
    destruct Hfill as (st' & Hz & _ & _ & _ & Hbytes).
    exists st'. split; [exact Hz|]. rewrite !Hbytes. split.
    + destruct (decide _) as [_|Hn]; [reflexivity|].
      exfalso. apply Hn. by vm_compute.
    + destruct (decide _) as [[_ [_ Hlt]]|_]; [|reflexivity].
      exfalso. revert Hlt. by vm_compute.
Defined.

(** * Further properties of the code *)

(** ** [simple_malloc] *)

Lemma set_brk_same st : set_brk (brk st) st = st.
Proof. by destruct st. Qed.

Lemma to_intptr_small size : size <= INTPTR_MAX -> to_intptr size = size.
Proof. intros H. unfold to_intptr. destruct (Z.leb_spec size INTPTR_MAX); [done|lia]. Qed.

Lemma to_intptr_large size : INTPTR_MAX < size -> to_intptr size = size - SIZE_MOD.
Proof. intros H. unfold to_intptr. destruct (Z.leb_spec size INTPTR_MAX); [lia|done]. Qed.

(** [simple_malloc] when the size reaches [sbrk] as it is. *)
Lemma simple_malloc_small st size :
  limits_ok st -> 0 <= size <= INTPTR_MAX ->
  simple_malloc size st =
    if brk_hi st <? brk st + size then Done NULL st
    else Done (brk st) (set_brk (brk st + size) st).
Proof.
  intros (Hpos & Hlo & Hhi & Hmax) [H0 Hsmall].
  assert (SBRK_FAILED < SIZE_MOD) by (by vm_compute).
  unfold simple_malloc. unfold bind at 1. rewrite sbrk_zero.
  unfold bind at 1. rewrite to_intptr_small by done. unfold sbrk.
  destruct (Z.eqb_spec size 0) as [->|Hnz].
  { rewrite Z.add_0_r, set_brk_same.
    destruct (Z.ltb_spec (brk_hi st) (brk st)); [lia|].
    destruct (Z.eqb_spec (brk st) SBRK_FAILED); [lia|].
    unfold bind, assert. by rewrite Z.eqb_refl. }
  destruct (Z.ltb_spec (brk st + size) 0); [lia|].
  destruct (Z.leb_spec SIZE_MOD (brk st + size)) as [Hwrap|Hfit]; cbn [orb].
  { rewrite Z.eqb_refl. destruct (Z.ltb_spec (brk_hi st) (brk st + size)); [done|lia]. }
  destruct (Z.ltb_spec (brk_hi st) (brk st + size)); [by rewrite Z.eqb_refl|].
  destruct (Z.ltb_spec (brk st + size) (brk_lo st)); [lia|].
  destruct (Z.eqb_spec (brk st) SBRK_FAILED); [lia|].
  unfold bind, assert. by rewrite Z.eqb_refl.
Qed.

(** [simple_malloc] when the size reaches [sbrk] as a negative increment. *)
Lemma simple_malloc_large st size :
  limits_ok st -> INTPTR_MAX < size < SIZE_MOD ->
  simple_malloc size st =
    if brk st - (SIZE_MOD - size) <? 0 then Done NULL st
    else if brk st - (SIZE_MOD - size) <? brk_lo st then Done (brk st) st
    else Done (brk st) (set_brk (brk st - (SIZE_MOD - size)) st).
Proof.
  intros (Hpos & Hlo & Hhi & Hmax) [Hbig Hlt].
  assert (SBRK_FAILED < SIZE_MOD) by (by vm_compute).
  unfold simple_malloc. unfold bind at 1. rewrite sbrk_zero.
  unfold bind at 1. rewrite to_intptr_large by done. unfold sbrk.
  destruct (Z.eqb_spec (size - SIZE_MOD) 0); [lia|].
  replace (brk st + (size - SIZE_MOD)) with (brk st - (SIZE_MOD - size)) by lia.
  destruct (Z.ltb_spec (brk st - (SIZE_MOD - size)) 0); cbn [orb].
  { by rewrite Z.eqb_refl. }
  destruct (Z.leb_spec SIZE_MOD (brk st - (SIZE_MOD - size))); [lia|].
  destruct (Z.ltb_spec (brk_hi st) (brk st - (SIZE_MOD - size))); [lia|].
  destruct (Z.ltb_spec (brk st - (SIZE_MOD - size)) (brk_lo st));
    (destruct (Z.eqb_spec (brk st) SBRK_FAILED); [lia|]);
    unfold bind, assert; by rewrite Z.eqb_refl.
Qed.


(** X2.  Two [simple_malloc] calls in a row, with sizes up to
    [INTPTR_MAX], that both succeed return adjacent regions: the second
    pointer is the first plus the first size, and the break ends up just
    past the second region. *)
Theorem simple_malloc_contiguous
    (st st1 st2 : heap) (size1 size2 ptr1 ptr2 : Z) :
  limits_ok st ->
  0 <= size1 <= INTPTR_MAX -> 0 <= size2 <= INTPTR_MAX ->
  simple_malloc size1 st = Done ptr1 st1 -> ptr1 <> NULL ->
  simple_malloc size2 st1 = Done ptr2 st2 -> ptr2 <> NULL ->
  brk_lo st <= ptr1 /\ ptr2 = ptr1 + size1 /\ brk st2 = ptr2 + size2 /\
  brk st2 <= brk_hi st.
Proof.
  intros Hlim [H1 H1'] [H2 H2'] Hm1 Hp1 Hm2 Hp2.
  pose proof Hlim as (Hpos & Hlo & Hhi & Hmax).
  rewrite (simple_malloc_small _ _ Hlim) in Hm1 by done.
  destruct (Z.ltb_spec (brk_hi st) (brk st + size1));
    [by injection Hm1 as <- _|].
  injection Hm1 as <- <-.
  assert (limits_ok (set_brk (brk st + size1) st)) as Hlim1
    by (unfold limits_ok; simpl; lia).
  rewrite (simple_malloc_small _ _ Hlim1) in Hm2 by done.
  cbn [set_brk brk brk_hi] in Hm2.
  destruct (Z.ltb_spec (brk_hi st) (brk st + size1 + size2));
    [by injection Hm2 as <- _|].
  injection Hm2 as <- <-. simpl. lia.
Qed.

(** X3.  A size above [INTPTR_MAX] reaches [sbrk] as a negative
    increment: when [sbrk] accepts it, [simple_malloc] returns the old
    break, not [NULL], and the break is lowered by [2^64 - size] bytes, so
    the call gives memory back instead of obtaining any. *)
Theorem simple_malloc_huge_size_lowers_break (st : heap) (size : Z) :
  limits_ok st ->
  INTPTR_MAX < size < SIZE_MOD ->
  brk_lo st <= brk st - (SIZE_MOD - size) ->
  exists st',
    simple_malloc size st = Done (brk st) st' /\
    brk st <> NULL /\
    brk st' = brk st - (SIZE_MOD - size) /\ brk st' < brk st.
Proof.
  intros Hlim [Hbig Hlt] Hroom. pose proof Hlim as (Hpos & Hlo & Hhi & Hmax).
  rewrite (simple_malloc_large _ _ Hlim) by done.
  destruct (Z.ltb_spec (brk st - (SIZE_MOD - size)) 0); [lia|].
  destruct (Z.ltb_spec (brk st - (SIZE_MOD - size)) (brk_lo st)); [lia|].
  eexists. split; [done|]. split; [unfold NULL; lia|]. simpl. lia.
Qed.

Lemma heap_wf_raise_brk st v :
  heap_wf st -> brk st <= v <= brk_hi st -> heap_wf (set_brk v st).
Proof.
  intros [Hlim Hc Hin Hap] [Hv1 Hv2]. pose proof Hlim as (Hpos & Hlo & Hhi & Hmax).
  split; unfold limits_ok; cbn [set_brk brk brk_lo brk_hi base blocks].
  - lia.
  - done.
  - intros a b Hb. destruct (Hin _ _ Hb) as (? & ? & ?). lia.
  - done.
Qed.

(** X4.  Memory obtained from [simple_malloc] stays apart from the blocks
    of the list.  On a well-formed heap, after a successful
    [simple_malloc] of [n <= INTPTR_MAX] bytes the heap is still
    well-formed, and whatever block a following [allocate_memory] returns,
    reused or new, header and payload lie entirely before or entirely
    after the [n] bytes. *)
Theorem simple_malloc_apart_from_blocks
    (st st1 : heap) (n ptr : Z) :
  heap_wf st -> 0 <= n <= INTPTR_MAX ->
  simple_malloc n st = Done ptr st1 -> ptr <> NULL ->
  heap_wf st1 /\
  forall size q st2,
    0 < size -> allocate_memory size st1 = Done q st2 -> q <> NULL ->
    exists b,
      blocks st2 !! retrieve_block_ptr q = Some b /\
      (q + blk_size b <= ptr \/ ptr + n <= retrieve_block_ptr q).
Proof.
  intros Hwf [Hn Hn'] Hm Hp.
  pose proof (heap_wf_limits _ Hwf) as Hlim. pose proof Hlim as (Hpos & Hlo & Hhi & Hmax).
  rewrite (simple_malloc_small _ _ Hlim) in Hm by done.
  destruct (Z.ltb_spec (brk_hi st) (brk st + n));
    [by injection Hm as <- _|].
  injection Hm as <- <-.
  assert (heap_wf (set_brk (brk st + n) st)) as Hwf1 by (apply heap_wf_raise_brk; [done|lia]).
  split; [done|]. intros size q st2 Hsize Halloc Hq.
  destruct (wf_chain _ Hwf1) as [l Hc].
  destruct (allocate_memory_cases _ l size Hwf1 Hc Hsize) as
    [(_ & _ & Heq)|[(_ & _ & Heq)|
     [(pre & a & post & b & -> & _ & Hb & _ & Heq)|(_ & _ & Heq)]]];
    rewrite Heq in Halloc.
  - by injection Halloc as <- _.
  - injection Halloc as <- <-. eexists.
    rewrite retrieve_block_ptr_user. split; [apply lookup_insert_eq|].
    right. simpl. lia.
  - injection Halloc as <- <-. eexists.
    rewrite retrieve_block_ptr_user. split; [apply lookup_insert_eq|].
    left. simpl. simpl in Hb. destruct (wf_inside _ Hwf _ _ Hb) as (? & ? & Hend).
    unfold block_end in Hend. lia.
  - done.
Qed.

(** ** [extend_memory] *)

Lemma chain_grown h l root x size tl :
  chain h root l -> x ∉ l -> x <> NULL ->
  tl = default NULL (last l) ->
  chain (<[x := MemBlock size NULL 0 TAG_EXTENDED]> (link tl x h))
        (match l with [] => x | _ => root end) (l ++ [x]).
Proof.
  intros Hc Hx Hnull ->. destruct l as [|y l'] eqn:Hl.
  - simpl. split; [done|]. split; [done|].
    eexists. split; [apply lookup_insert_eq|done].
  - rewrite <- Hl in *.
    destruct (last l) as [t|] eqn:Ht; [|apply last_None in Ht; congruence].
    destruct (chain_last _ _ _ _ Hc Ht) as [bt Hbt]. simpl. unfold link.
    assert (t <> NULL) as Htn.
    { eapply chain_elem_of; [exact Hc|]. by eapply last_Some_elem_of. }
    destruct (Z.eqb_spec t NULL); [done|]. rewrite Hbt.
    by apply chain_snoc.
Qed.

Lemma link_lookup_Some last x h a b0 :
  h !! a = Some b0 ->
  exists b, link last x h !! a = Some b /\ blk_size b = blk_size b0 /\
            blk_free b = blk_free b0 /\ blk_debug_flag b = blk_debug_flag b0.
Proof.
  intros Hb. unfold link. destruct (last =? NULL); [by exists b0|].
  destruct (h !! last) as [bl|] eqn:Hbl; [|by exists b0].
  destruct (Z.eq_dec last a) as [->|Hne].
  - rewrite lookup_insert_eq. rewrite Hb in Hbl. injection Hbl as <-.
    eexists. by repeat split.
  - rewrite lookup_insert_ne by done. by exists b0.
Qed.

(** X5.  [extend_memory] on a well-formed heap, called with the last block
    of the list (or [NULL] for an empty list) and a size whose growth
    request [size + BLOCK_SIZE] does not exceed [INTPTR_MAX].  If the break
    cannot rise by [size + BLOCK_SIZE] the call returns [NULL] and nothing
    has changed, the link of the last block included.  Otherwise it returns
    the old break; the list is the old list with the new block appended;
    the new header records the requested size, no successor, in use, with
    the extended tag; every other header keeps its size, [free] and tag;
    the break has risen by [size + BLOCK_SIZE]; [base] and the payload
    bytes are as before.  The contiguity assertion never fails. *)
Theorem extend_memory_appends
    (st : heap) (l : list Z) (last size : Z) :
  heap_wf st -> chain (blocks st) (base st) l ->
  last = default NULL (list.last l) ->
  0 <= size -> size + BLOCK_SIZE <= INTPTR_MAX ->
  (brk_hi st < brk st + size + BLOCK_SIZE ->
   extend_memory last size st = Done NULL st) /\
  (brk st + size + BLOCK_SIZE <= brk_hi st ->
   exists st',
     extend_memory last size st = Done (brk st) st' /\
     brk st <> NULL /\
     brk st' = brk st + size + BLOCK_SIZE /\
     chain (blocks st') (match l with [] => brk st | _ => base st end) (l ++ [brk st]) /\
     blocks st' !! brk st = Some (MemBlock size NULL 0 TAG_EXTENDED) /\
     (forall a b, blocks st !! a = Some b ->
        a <> brk st /\
        exists b', blocks st' !! a = Some b' /\ blk_size b' = blk_size b /\
                   blk_free b' = blk_free b /\ blk_debug_flag b' = blk_debug_flag b) /\
     base st' = base st /\ bytes st' = bytes st).
Proof.
  intros Hwf Hc Hlast H0 Hsmall.
  pose proof (heap_wf_limits _ Hwf) as Hlim. pose proof Hlim as (Hpos & Hlo & Hhi & Hmax).
  assert (last = NULL \/ is_Some (blocks st !! last)) as Hl.
  { subst last. destruct (list.last l) as [t|] eqn:Ht; [|by left].
    right. by eapply chain_last. }
  rewrite (extend_memory_spec _ _ _ Hwf Hl), grow_rejected_small by done.
  split; intros Hbrk.
  { destruct (Z.ltb_spec (brk_hi st) (brk st + size + BLOCK_SIZE)); [done|lia]. }
  destruct (Z.ltb_spec (brk_hi st) (brk st + size + BLOCK_SIZE)); [lia|].
  rewrite growth_exact by done.
  destruct (Z.leb_spec BLOCK_SIZE (size + BLOCK_SIZE)); [|lia].
  assert (brk st ∉ l) as Hfresh.
  { intros Hx. destruct (chain_elem_of _ _ _ _ Hc Hx) as [_ [b Hb]].
    rewrite (wf_brk_fresh _ Hwf) in Hb. done. }
  assert (brk st <> NULL) as Hnn by (unfold NULL; lia).
  eexists. split; [done|]. split; [done|]. cbn [grown brk blocks base bytes].
  split; [rewrite growth_exact by done; lia|]. split; [by apply chain_grown|].
  split; [apply lookup_insert_eq|]. split; [|done].
  intros a b Hb.
  assert (a <> brk st) as Hne by (intros ->; by rewrite (wf_brk_fresh _ Hwf) in Hb).
  split; [done|].
  rewrite lookup_insert_ne by done. by apply link_lookup_Some.
Qed.

(** ** [allocate_memory] and [release_memory] together *)

Lemma allocate_memory_failure_same (st st' : heap) (size : Z) :
  heap_wf st -> allocate_memory size st = Done NULL st' -> st' = st.
Proof.
  intros Hwf Halloc.
  pose proof (heap_wf_limits _ Hwf) as Hlim. pose proof Hlim as (Hpos & Hlo & Hhi & Hmax).
  destruct (Z.leb_spec size 0) as [Hle|Hsize].
  { unfold allocate_memory in Halloc.
    destruct (Z.leb_spec size 0); [|lia]. by injection Halloc as <-. }
  destruct (wf_chain _ Hwf) as [l Hc].
  destruct (allocate_memory_cases st l size Hwf Hc Hsize) as
    [(_ & _ & Heq)|[(_ & _ & Heq)|
     [(pre & a & post & b & -> & _ & Hb & _ & Heq)|(_ & _ & Heq)]]];
    rewrite Heq in Halloc.
  - by injection Halloc as <-.
  - injection Halloc as Hnull _. unfold NULL, BLOCK_SIZE in *. lia.
  - injection Halloc as Hnull _.
    destruct (wf_inside _ Hwf _ _ Hb) as (? & _). unfold NULL, BLOCK_SIZE in *. lia.
  - done.
Qed.

(** X6.  A failing [allocate_memory] is without effect: on a well-formed
    heap, whenever the call returns [NULL] (zero size, or no free block
    fits and [sbrk] refuses), the heap after the call is the heap before
    it. *)
Theorem allocate_memory_failure_unchanged (st st' : heap) (size : Z) :
  heap_wf st -> allocate_memory size st = Done NULL st' -> st' = st.
Proof. apply allocate_memory_failure_same. Qed.

Lemma fits_same size b b0 :
  blk_size b = blk_size b0 -> blk_free b = blk_free b0 -> fits size b = fits size b0.
Proof. intros Hs Hf. unfold fits. by rewrite Hs, Hf. Qed.

Lemma fits_at_same h h' size x :
  (forall b0, h !! x = Some b0 ->
     exists b, h' !! x = Some b /\ blk_size b = blk_size b0 /\ blk_free b = blk_free b0) ->
  is_Some (h !! x) ->
  fits_at h' size x = fits_at h size x.
Proof.
  intros Hsame [b0 Hb0]. destruct (Hsame _ Hb0) as (b & Hb & Hs & Hf).
  unfold fits_at. rewrite Hb, Hb0. by apply fits_same.
Qed.

Lemma chain_default_last h root l :
  chain h root l -> default root (last l) = default NULL (last l).
Proof.
  intros Hc. destruct (last l) eqn:Hl; [done|].
  apply last_None in Hl. subst l. simpl in *. done.
Qed.

Lemma chain_base_appended h root l x :
  chain h root l -> (if root =? NULL then x else root) = match l with [] => x | _ => root end.
Proof.
  intros Hc. destruct l as [|y l].
  - simpl in Hc. rewrite Hc. done.
  - simpl in Hc. destruct Hc as (-> & Hy & _).
    destruct (Z.eqb_spec y NULL); done.
Qed.

(** The list after [allocate_memory] appended a block. *)
Lemma chain_appended st l size :
  heap_wf st -> chain (blocks st) (base st) l ->
  chain (blocks (appended st l size)) (base (appended st l size)) (l ++ [brk st]).
Proof.
  intros Hwf Hc. pose proof (heap_wf_limits _ Hwf) as (Hpos & Hlo & Hhi & Hmax).
  cbn [appended set_base grown blocks base].
  rewrite (chain_base_appended _ _ _ (brk st) Hc), (chain_default_last _ _ _ Hc).
  apply chain_grown; try done.
  - intros Hx. destruct (chain_elem_of _ _ _ _ Hc Hx) as [_ [b Hb]].
    by rewrite (wf_brk_fresh _ Hwf) in Hb.
  - unfold NULL. lia.
Qed.

(** X7.  Allocate, release, allocate again: on a well-formed heap, if
    [allocate_memory(size)] returned [ptr], then [release_memory(ptr)]
    returns and a second [allocate_memory(size)] returns the same [ptr],
    now as a reused block: in use, tagged as reused. *)
Theorem allocate_release_allocate (st st1 : heap) (size ptr : Z) :
  heap_wf st -> 0 < size ->
  allocate_memory size st = Done ptr st1 -> ptr <> NULL ->
  exists st2 st3 b,
    release_memory ptr st1 = Done tt st2 /\
    allocate_memory size st2 = Done ptr st3 /\
    blocks st3 !! retrieve_block_ptr ptr = Some b /\
    blk_free b = 0 /\ blk_debug_flag b = TAG_REUSED.
Proof.
  intros Hwf Hsize Halloc Hp. destruct (wf_chain _ Hwf) as [l Hc].
  assert (forall pre a post ba,
            ptr = a + BLOCK_SIZE ->
            chain (blocks st1) (base st1) (pre ++ a :: post) ->
            blocks st1 !! a = Some ba ->
            blk_free ba = 0 -> in_use_tag (blk_debug_flag ba) -> size <= blk_size ba ->
            Forall (fun x => fits_at (blocks st1) size x = false) pre ->
            exists st2 st3 b,
              release_memory ptr st1 = Done tt st2 /\
              allocate_memory size st2 = Done ptr st3 /\
              blocks st3 !! retrieve_block_ptr ptr = Some b /\
              blk_free b = 0 /\ blk_debug_flag b = TAG_REUSED) as Hgo.
  { intros pre a post ba -> Hc1 Hba Hfree Htag Hle Hpre.
    assert (retrieve_block_ptr (a + BLOCK_SIZE) = a) as Hra by apply retrieve_block_ptr_user.
    rewrite <- Hra in Hba.
    rewrite (release_memory_spec _ _ _ Hp Hba).
    apply in_use_tagb_spec in Htag. rewrite Hfree, Htag. simpl.
    set (bf := MemBlock (blk_size ba) (blk_next ba) 1 TAG_FREED).
    set (st2 := released st1 (a + BLOCK_SIZE) ba).
    assert (blocks st2 !! a = Some bf) as Hbf.
    { unfold st2, released. cbn [blocks set_blocks]. rewrite Hra. apply lookup_insert_eq. }
    pose proof (chain_NoDup _ _ _ Hc1) as Hnd.
    apply NoDup_app in Hnd as (_ & Hnotin & _).
    exists st2, (reused st2 a bf), (MemBlock (blk_size bf) (blk_next bf) 0 TAG_REUSED).
    split; [done|]. split.
    - eapply allocate_memory_reuse; [| |exact Hbf| |done].
      + eapply chain_ext; [exact Hc1|]. intros x c _ Hxc.
        unfold st2, released. cbn [blocks set_blocks]. rewrite Hra.
        destruct (Z.eq_dec a x) as [->|Hne].
        * rewrite lookup_insert_eq. exists bf. split; [done|].
          rewrite Hra in Hba. simpl. congruence.
        * rewrite lookup_insert_ne by done. eauto.
      + rewrite Forall_forall in Hpre |- *. intros x Hx.
        rewrite <- (Hpre x Hx). unfold fits_at, st2, released.
        cbn [blocks set_blocks]. rewrite Hra.
        rewrite lookup_insert_ne; [done|].
        intros <-. apply (Hnotin _ Hx). by left.
      + unfold fits, bf. simpl. by apply Z.leb_le.
    - rewrite Hra. cbn [reused blocks set_blocks]. by rewrite lookup_insert_eq. }
  destruct (allocate_memory_cases st l size Hwf Hc Hsize) as
    [(_ & _ & Heq)|[(Hall & _ & Heq)|
     [(pre & a & post & b & -> & Hpre & Hb & Hfit & Heq)|(_ & _ & Heq)]]];
    rewrite Heq in Halloc; [ | | |done].
  - by injection Halloc as <- _.
  - injection Halloc as <- <-.
    apply (Hgo l (brk st) [] (MemBlock size NULL 0 TAG_EXTENDED));
      [done|by apply chain_appended|apply lookup_insert_eq|done|by left|simpl; lia|].
    rewrite Forall_forall in Hall |- *. intros x Hx.
    rewrite <- (Hall x Hx).
    destruct (chain_elem_of _ _ _ _ Hc Hx) as [_ [b0 Hb0]].
    pose proof (wf_below_brk _ _ _ Hwf Hb0).
    apply fits_at_same; [|by exists b0].
    intros c Hc0. cbn [appended set_base grown blocks].
    rewrite lookup_insert_ne by (unfold BLOCK_SIZE in *; lia).
    destruct (link_lookup_Some (default (base st) (last l)) (brk st) _ _ _ Hc0)
      as (c' & Hc' & Hs & Hf & _). eauto.
  - injection Halloc as <- <-.
    pose proof (chain_NoDup _ _ _ Hc) as Hnd.
    apply NoDup_app in Hnd as (_ & Hnotin & _).
    apply (Hgo pre a post (MemBlock (blk_size b) (blk_next b) 0 TAG_REUSED));
      [done| |apply lookup_insert_eq|done|by right| |].
    + eapply chain_ext; [exact Hc|]. intros x c _ Hxc. cbn [reused blocks set_blocks].
      destruct (Z.eq_dec a x) as [->|Hne].
      * rewrite lookup_insert_eq. eexists. split; [done|]. simpl. congruence.
      * rewrite lookup_insert_ne by done. eauto.
    + simpl. unfold fits in Hfit. apply andb_true_iff in Hfit as [_ ?%Z.leb_le]. done.
    + rewrite Forall_forall in Hpre |- *. intros x Hx.
      rewrite <- (Hpre x Hx). unfold fits_at. cbn [reused blocks set_blocks].
      rewrite lookup_insert_ne; [done|].
      intros <-. apply (Hnotin _ Hx). by left.
Qed.

(** X8.  A second [release_memory] of the same pointer dies on the first
    assertion: after a release that returned, the block is marked free, so
    releasing it again never returns. *)
Theorem release_memory_twice_aborts (st : heap) (ptr : Z) (b : mem_block) :
  ptr <> NULL ->
  blocks st !! retrieve_block_ptr ptr = Some b ->
  blk_free b = 0 -> in_use_tag (blk_debug_flag b) ->
  exists st1,
    release_memory ptr st = Done tt st1 /\
    release_memory ptr st1 = AssertFail.
Proof.
  intros Hp Hb Hfree Htag. rewrite (release_memory_spec _ _ _ Hp Hb).
  apply in_use_tagb_spec in Htag. rewrite Hfree, Htag. simpl.
  eexists. split; [done|].
  erewrite release_memory_spec; [|done|apply lookup_insert_eq]. done.
Qed.

Lemma release_memory_bytes st ptr st' :
  release_memory ptr st = Done tt st' -> bytes st' = bytes st.
Proof.
  unfold release_memory. destruct (ptr =? NULL); [by intros [= <-]|].
  unfold bind, load_block, assert.
  destruct (blocks st !! retrieve_block_ptr ptr) as [b|] eqn:Hb; [|done].
  destruct (blk_free b =? 0); [|done]. destruct (_ || _); [|done].
  rewrite (store_block_update _ _ _ _ Hb). by intros [= <-].
Qed.

(** X9.  On a well-formed heap neither [release_memory] nor
    [allocate_memory] writes to payload memory: after a release and a
    following allocation the heap is well-formed and every byte is what it
    was, so a block that is reused comes back with the content its previous
    owner left in it. *)
Theorem release_allocate_keeps_bytes
    (st st1 st2 : heap) (ptr size new_ptr : Z) :
  heap_wf st -> size < SIZE_MOD ->
  release_memory ptr st = Done tt st1 ->
  allocate_memory size st1 = Done new_ptr st2 ->
  heap_wf st1 /\ heap_wf st2 /\ bytes st1 = bytes st /\ bytes st2 = bytes st.
Proof.
  intros Hwf Htyped Hrel Halloc.
  pose proof (release_memory_wf _ _ _ Hwf Hrel) as Hwf1.
  pose proof (allocate_memory_wf_typed _ _ _ _ Hwf1 Htyped Halloc) as Hwf2.
  apply release_memory_bytes in Hrel.
  apply allocate_memory_done in Halloc as [Hbytes _].
  split; [done|]. split; [done|]. split; congruence.
Qed.

(** ** What a moving [reallocate_memory] and [zero_allocate] leave alone *)

(** X10.  After a [reallocate_memory] that moved the block, the old pointer
    is dead: the call has released it, so a [release_memory] of the old
    pointer dies on the assertion against double release. *)
Theorem reallocate_memory_then_release_old_aborts
    (st st1 : heap) (l : list Z) (ptr size new_ptr : Z) (b : mem_block) :
  heap_wf st -> chain (blocks st) (base st) l ->
  ptr <> NULL ->
  blocks st !! retrieve_block_ptr ptr = Some b ->
  blk_free b = 0 -> in_use_tag (blk_debug_flag b) ->
  blk_size b < size ->
  allocate_memory size st = Done new_ptr st1 -> new_ptr <> NULL ->
  exists st',
    reallocate_memory ptr size st = Done new_ptr st' /\
    release_memory ptr st' = AssertFail.
Proof.
  intros Hwf Hc Hp Hb Hfree Htag Hlt Halloc Hnew.
  destruct (reallocate_memory_moves _ _ _ _ _ _ _ Hwf Hc Hp Hb Hfree Htag Hlt Halloc Hnew)
    as (b' & Hb' & Hs' & Hbytes & Hdiff & Hsep & Heq).
  eexists. split; [exact Heq|].
  erewrite release_memory_spec; [|done|apply lookup_insert_eq]. done.
Qed.

(** X11.  A [reallocate_memory] that moves a block writes only into the
    new block: on a well-formed heap the payload of every block that was in
    use before the call, the moved block's old payload included, holds the
    same bytes after it. *)
Theorem reallocate_memory_leaves_payloads
    (st st1 : heap) (l : list Z) (ptr size new_ptr : Z) (b : mem_block) :
  heap_wf st -> chain (blocks st) (base st) l ->
  ptr <> NULL ->
  blocks st !! retrieve_block_ptr ptr = Some b ->
  blk_free b = 0 -> in_use_tag (blk_debug_flag b) ->
  blk_size b < size ->
  allocate_memory size st = Done new_ptr st1 -> new_ptr <> NULL ->
  exists st',
    reallocate_memory ptr size st = Done new_ptr st' /\
    forall q bq,
      blocks st !! retrieve_block_ptr q = Some bq -> blk_free bq = 0 ->
      forall i, 0 <= i < blk_size bq ->
        bytes st' !! (q + i) = bytes st !! (q + i).
Proof.
  intros Hwf Hc Hp Hb Hfree Htag Hlt Halloc Hnew.
  destruct (wf_inside _ Hwf _ _ Hb) as (Ha1 & Ha2 & Ha3).
  destruct (reallocate_memory_moves _ _ _ _ _ _ _ Hwf Hc Hp Hb Hfree Htag Hlt Halloc Hnew)
    as (b' & Hb' & Hs' & Hbytes & Hdiff & Hsep & Heq).
  assert (0 < size) as Hsize by lia.
  destruct (allocate_memory_frame _ _ _ _ _ Hwf Hc Hsize Halloc Hnew)
    as (_ & bn & Hbn & Hsz & Hframe).
  eexists. split; [exact Heq|]. intros q bq Hq Hqfree i Hi.
  destruct (Hframe _ _ Hq Hqfree) as (_ & _ & Hapart).
  cbn [bytes released set_blocks set_bytes].
  rewrite copy_bytes_lookup by (rewrite Z2Nat.id by lia; done).
  rewrite Z2Nat.id by lia.
  destruct (decide (new_ptr <= q + i < new_ptr + blk_size b)) as [Hin|_];
    [|by rewrite Hbytes].
  exfalso. unfold block_end, retrieve_block_ptr, BLOCK_SIZE in *. lia.
Qed.

(** X12.  [zero_allocate] clears only the block it returns: on a
    well-formed heap the payload of every block that was in use before the
    call holds the same bytes after it, whether the call succeeds or
    fails. *)
Theorem zero_allocate_leaves_payloads
    (st st' : heap) (l : list Z) (elements element_size ptr : Z) :
  heap_wf st -> chain (blocks st) (base st) l ->
  zero_allocate elements element_size st = Done ptr st' ->
  forall q bq,
    blocks st !! retrieve_block_ptr q = Some bq -> blk_free bq = 0 ->
    forall i, 0 <= i < blk_size bq ->
      bytes st' !! (q + i) = bytes st !! (q + i).
Proof.
  intros Hwf Hc Hz q bq Hq Hqfree i Hi. rewrite zero_allocate_spec in Hz.
  pose proof (wrap_range (elements * element_size)) as Hrange.
  destruct (allocate_memory _ st) as [p st1| | |] eqn:Halloc; try done.
  pose proof (allocate_memory_done _ _ _ _ Halloc) as [Hbytes _].
  destruct (Z.eqb_spec p NULL) as [Hp|Hp].
  { injection Hz as _ <-. by rewrite Hbytes. }
  destruct (_ && _); [done|].
  injection Hz as <- <-.
  assert (0 < wrap (elements * element_size)) as Hpos.
  { destruct (Z.leb_spec (wrap (elements * element_size)) 0) as [Hle|]; [|done].
    unfold allocate_memory in Halloc.
    destruct (Z.leb_spec (wrap (elements * element_size)) 0); [|lia].
    by injection Halloc as <- _. }
  destruct (allocate_memory_frame _ _ _ _ _ Hwf Hc Hpos Halloc Hp)
    as (_ & bn & Hbn & Hsz & Hframe).
  destruct (Hframe _ _ Hq Hqfree) as (_ & _ & Hapart).
  cbn [bytes set_bytes]. rewrite fill_bytes_lookup, Z2Nat.id by lia.
  destruct (decide (p <= q + i < p + wrap (elements * element_size))) as [Hin|_];
    [|by rewrite Hbytes].
  exfalso. unfold block_end, retrieve_block_ptr, BLOCK_SIZE in *. lia.
Qed.

(** ** What whole programs can rely on *)

Lemma dom_insert_known (h : gmap Z mem_block) a b b' :
  h !! a = Some b -> dom (<[a := b']> h) = dom h.
Proof.
  intros Hb. rewrite dom_insert_L. apply elem_of_dom_2 in Hb.
  apply set_eq. intros x. rewrite elem_of_union, elem_of_singleton.
  split; [intros [->|?]; done|by right].
Qed.

Lemma dom_link last x h : dom (link last x h) = dom h.
Proof.
  unfold link. destruct (last =? NULL); [done|].
  destruct (h !! last) as [bl|] eqn:Hbl; [|done].
  by eapply dom_insert_known.
Qed.

Lemma heap_extends_refl st : heap_extends st st [].
Proof.
  repeat split; try done; try lia.
  - intros a b Hb. by exists b.
  - intros l Hc. by rewrite app_nil_r.
  - constructor.
  - by rewrite list_to_set_nil, (right_id_L ∅ (∪)).
Qed.

Lemma heap_extends_trans st1 st2 st3 l1 l2 :
  heap_extends st1 st2 l1 -> heap_extends st2 st3 l2 ->
  heap_extends st1 st3 (l1 ++ l2).
Proof.
  intros (Hlo & Hhi & Hbrk & Hblk & Hch & Hin & Hsort & Hdom)
         (Hlo' & Hhi' & Hbrk' & Hblk' & Hch' & Hin' & Hsort' & Hdom').
  rewrite Forall_forall in Hin, Hin'.
  split; [congruence|]. split; [congruence|]. split; [lia|].
  split; [|split; [|split; [|split]]].
  - intros a b Hb. destruct (Hblk _ _ Hb) as (b' & Hb' & Hs).
    destruct (Hblk' _ _ Hb') as (b'' & Hb'' & Hs'). exists b''. split; [done|congruence].
  - intros l Hc. rewrite app_assoc. by apply Hch', Hch.
  - apply Forall_forall. intros x [Hx|Hx]%elem_of_app.
    + specialize (Hin _ Hx). lia.
    + specialize (Hin' _ Hx). lia.
  - apply StronglySorted_app_2; [|done..].
    intros x1 x2 Hx1 Hx2. specialize (Hin _ Hx1). specialize (Hin' _ Hx2). lia.
  - by rewrite Hdom', Hdom, list_to_set_app_L, (assoc_L (∪)).
Qed.

Lemma heap_extends_set_bytes st m : heap_extends st (set_bytes m st) [].
Proof. exact (heap_extends_refl st). Qed.

Lemma heap_extends_update st a b b' :
  blocks st !! a = Some b ->
  blk_size b' = blk_size b -> blk_next b' = blk_next b ->
  heap_extends st (set_blocks (<[a := b']> (blocks st)) st) [].
Proof.
  intros Hb Hsize Hnext.
  split; [done|]. split; [done|]. split; [cbn [set_blocks brk]; lia|].
  cbn [set_blocks blocks brk base]. split; [|split; [|split; [|split]]].
  - intros x c Hx. destruct (Z.eq_dec a x) as [->|Hne].
    + rewrite lookup_insert_eq. exists b'. split; [done|congruence].
    + rewrite lookup_insert_ne by done. by exists c.
  - intros l Hc. rewrite app_nil_r.
    eapply chain_ext; [exact Hc|]. intros x c _ Hx.
    destruct (Z.eq_dec a x) as [->|Hne].
    + rewrite lookup_insert_eq. exists b'. split; [done|congruence].
    + rewrite lookup_insert_ne by done. eauto.
  - constructor.
  - constructor.
  - by rewrite (dom_insert_known _ _ _ _ Hb), list_to_set_nil, (right_id_L ∅ (∪)).
Qed.

Lemma heap_extends_appended st l size :
  heap_wf st -> chain (blocks st) (base st) l ->
  0 < size -> size + BLOCK_SIZE <= INTPTR_MAX ->
  heap_extends st (appended st l size) [brk st].
Proof.
  intros Hwf Hc Hsize Hsmall.
  split; [done|]. split; [done|]. cbn [appended set_base grown blocks brk base].
  rewrite growth_exact by lia.
  split; [unfold BLOCK_SIZE; lia|]. split; [|split; [|split; [|split]]].
  - intros a b Hb.
    assert (a <> brk st) by (intros ->; by rewrite (wf_brk_fresh _ Hwf) in Hb).
    rewrite lookup_insert_ne by done.
    destruct (link_lookup_Some (default (base st) (last l)) (brk st) _ _ _ Hb)
      as (b' & Hb' & Hs & _). eauto.
  - intros l0 Hc0. rewrite (chain_deterministic _ _ _ _ _ eq_refl Hc0 Hc).
    by apply chain_appended.
  - apply Forall_singleton. unfold BLOCK_SIZE. lia.
  - repeat constructor.
  - rewrite dom_insert_L, dom_link, list_to_set_singleton_L. apply (comm_L (∪)).
Qed.

Lemma allocate_memory_extends st size ptr st' :
  heap_wf st -> size + BLOCK_SIZE <= INTPTR_MAX ->
  allocate_memory size st = Done ptr st' -> exists l', heap_extends st st' l'.
Proof.
  intros Hwf Hsmall. destruct (Z.leb_spec size 0) as [Hle|Hsize].
  { unfold allocate_memory. destruct (Z.leb_spec size 0); [|lia].
    intros [= _ <-]. eexists. apply heap_extends_refl. }
  destruct (wf_chain _ Hwf) as [l Hc].
  destruct (allocate_memory_cases st l size Hwf Hc Hsize) as
    [(_ & _ & Heq)|[(_ & Hrej & Heq)|
     [(pre & a & post & b & -> & _ & Hb & _ & Heq)|(_ & _ & Heq)]]];
    rewrite Heq; [ | | |done]; intros [= _ <-]; eexists.
  - apply heap_extends_refl.
  - by apply heap_extends_appended.
  - by eapply heap_extends_update.
Qed.

Lemma perform_extends st r live res st' :
  heap_wf st -> all_live st live -> request_ok live r = true -> request_small r ->
  perform r st = Done res st' -> exists l', heap_extends st st' l'.
Proof.
  intros Hwf Hlive Hok Hsmall. destruct (wf_chain _ Hwf) as [l Hc].
  destruct r as [size|n k|ptr size|ptr]; simpl in *.
  - by apply allocate_memory_extends.
  - rewrite zero_allocate_spec.
    destruct (allocate_memory _ st) as [q st1| | |] eqn:Halloc; try done.
    apply allocate_memory_extends in Halloc as [l' Hext]; [|done..].
    destruct (q =? NULL); [intros [= _ <-]; by exists l'|].
    destruct (_ && _); [done|]. intros [= _ <-]. exists (l' ++ []).
    eapply heap_extends_trans; [exact Hext|apply heap_extends_set_bytes].
  - destruct (Z.eqb_spec ptr NULL) as [->|Hp]; [by apply allocate_memory_extends|].
    simpl in Hok. apply bool_decide_eq_true in Hok.
    destruct (Hlive _ Hok) as (b & Hb & Hfree & Htag).
    destruct (Z.le_gt_cases size (blk_size b)) as [Hle|Hgt].
    { rewrite (reallocate_memory_unfold _ _ _ _ Hp Hb).
      destruct (Z.leb_spec size (blk_size b)); [|lia].
      intros [= _ <-]. eexists. apply heap_extends_refl. }
    destruct (allocate_memory size st) as [q st1| | |] eqn:Hq.
    2-4: rewrite (reallocate_memory_unfold _ _ _ _ Hp Hb), Hq;
         destruct (Z.leb_spec size (blk_size b)); [lia|done].
    destruct (allocate_memory_extends _ _ _ _ Hwf Hsmall Hq) as [l' Hext].
    destruct (Z.eq_dec q NULL) as [->|Hqn].
    { rewrite (reallocate_memory_unfold _ _ _ _ Hp Hb), Hq.
      destruct (Z.leb_spec size (blk_size b)); [lia|]. intros [= _ <-]. by exists l'. }
    assert (blk_size b < size) as Hlt by lia.
    destruct (reallocate_memory_moves st st1 l ptr size q b Hwf Hc Hp Hb Hfree Htag Hlt Hq Hqn)
      as (b' & Hb' & Hs' & _ & _ & _ & Hre).
    rewrite Hre. intros [= _ <-]. exists (l' ++ ([] ++ [])).
    eapply heap_extends_trans; [exact Hext|].
    eapply heap_extends_trans; [apply heap_extends_set_bytes|].
    by eapply heap_extends_update.
  - unfold bind. destruct (Z.eqb_spec ptr NULL) as [->|Hp].
    { intros [= _ <-]. eexists. apply heap_extends_refl. }
    simpl in Hok. apply bool_decide_eq_true in Hok.
    destruct (Hlive _ Hok) as (b & Hb & Hfree & Htag).
    rewrite (release_memory_spec _ _ _ Hp Hb).
    apply in_use_tagb_spec in Htag. rewrite Hfree, Htag. simpl.
    intros [= _ <-]. eexists. by eapply heap_extends_update.
Qed.

(** Along a program the heap stays well-formed, only extends, and the
    pointers held stay in use. *)
Lemma run_extends rs : forall st live live' st',
  heap_wf st -> all_live st live -> Forall request_small rs ->
  run rs live st = Done live' st' ->
  heap_wf st' /\ all_live st' live' /\ exists l', heap_extends st st' l'.
Proof.
  induction rs as [|r rs IH]; intros st live live' st' Hwf Hlive Hsmall; simpl.
  - intros [= <- <-]. split; [done|]. split; [done|]. eexists. apply heap_extends_refl.
  - apply Forall_cons in Hsmall as [Hr Hrs].
    destruct (request_ok live r) eqn:Hok; [|done].
    destruct (perform_returns st r live Hwf Hlive Hok Hr) as (res & st1 & Hperf & Hwf1).
    unfold bind. rewrite Hperf. intros Hrun.
    pose proof (perform_keeps _ _ _ _ _ Hlive Hok Hperf) as Hlive1.
    destruct (perform_extends _ _ _ _ _ Hwf Hlive Hok Hr Hperf) as [l1 Hext].
    destruct (IH _ _ _ _ Hwf1 Hlive1 Hrs Hrun) as (Hwf' & Hlive' & l2 & Hext').
    split; [done|]. split; [done|]. eexists. by eapply heap_extends_trans.
Qed.

(** X13.  Nothing the allocator has obtained is ever given up, moved or
    resized.  Along any program that starts in a well-formed heap, passes
    only pointers it holds, and whose growth requests do not wrap round,
    the limits of the break stay the same, the break is never lowered, and
    every block is still at its address with the size recorded when it was
    created: blocks are neither split nor merged nor dropped. *)
Theorem run_keeps_blocks
    (rs : list request) (st st' : heap) (live live' : gset Z) :
  heap_wf st -> all_live st live -> Forall request_small rs ->
  run rs live st = Done live' st' ->
  brk_lo st' = brk_lo st /\ brk_hi st' = brk_hi st /\ brk st <= brk st' /\
  forall a b, blocks st !! a = Some b ->
    exists b', blocks st' !! a = Some b' /\ blk_size b' = blk_size b.
Proof.
  intros Hwf Hlive Hsmall Hrun.
  destruct (run_extends _ _ _ _ _ Hwf Hlive Hsmall Hrun)
    as (_ & _ & l' & Hlo & Hhi & Hbrk & Hblk & _).
  by repeat split.
Qed.

(** X14.  The list of blocks only grows, and only at its end.  Along any
    such program, if the list was [l] at the start then at the end it is
    [l] followed by a list [l'] of new blocks: the headers the heap has at
    the end are those it had at the start and those of [l'], no header of
    [l'] existed at the start, each lies between the break at the start and
    the break at the end, and [l'] is in increasing order of address, which
    is the order of creation since every new block is made at the break.
    In particular [base], once set, never changes. *)
Theorem run_appends_only
    (rs : list request) (st st' : heap) (live live' : gset Z) (l : list Z) :
  heap_wf st -> all_live st live -> Forall request_small rs ->
  chain (blocks st) (base st) l ->
  run rs live st = Done live' st' ->
  (exists l',
     chain (blocks st') (base st') (l ++ l') /\
     dom (blocks st') = dom (blocks st) ∪ list_to_set l' /\
     Forall (fun x => blocks st !! x = None /\ brk st <= x < brk st') l' /\
     StronglySorted Z.lt l') /\
  (base st <> NULL -> base st' = base st).
Proof.
  intros Hwf Hlive Hsmall Hc Hrun.
  destruct (run_extends _ _ _ _ _ Hwf Hlive Hsmall Hrun)
    as (_ & _ & l' & _ & _ & _ & _ & Hch & Hin & Hsort & Hdom).
  pose proof (Hch _ Hc) as Hc'. split.
  - exists l'. split; [done|]. split; [done|]. split; [|done].
    rewrite Forall_forall in Hin |- *. intros x Hx. split; [|by apply Hin].
    destruct (blocks st !! x) as [b|] eqn:Hb; [|done].
    apply (wf_below_brk _ _ _ Hwf) in Hb. specialize (Hin _ Hx).
    unfold BLOCK_SIZE in Hb. lia.
  - intros Hbase. destruct l as [|x l].
    + simpl in Hc. done.
    + simpl in Hc, Hc'. destruct Hc as (-> & _). destruct Hc' as (-> & _). done.
Qed.


(** ** Footprint and failure of single calls *)

(** X16.  [zero_allocate] fails exactly as [allocate_memory] does on the
    wrapped product.  On a well-formed heap, when the growth request for
    [(n * k) mod 2^64] bytes does not exceed [INTPTR_MAX], the call
    returns; it returns [NULL] exactly when [(n * k) mod 2^64] is zero (so
    for a zero count, a zero element size, and any product that is a
    multiple of [2^64]) or every block of the list is in use or too small
    and the break cannot rise by the total and a header; and then the heap
    is exactly the heap before the call. *)
Theorem zero_allocate_failure
    (st : heap) (l : list Z) (elements element_size : Z) :
  heap_wf st -> chain (blocks st) (base st) l ->
  wrap (elements * element_size) + BLOCK_SIZE <= INTPTR_MAX ->
  exists ptr st',
    zero_allocate elements element_size st = Done ptr st' /\
    (ptr = NULL <->
       wrap (elements * element_size) = 0 \/
       ((forall x c, x ∈ l -> blocks st !! x = Some c ->
           blk_free c = 0 \/ blk_size c < wrap (elements * element_size)) /\
        brk_hi st < brk st + wrap (elements * element_size) + BLOCK_SIZE)) /\
    (ptr = NULL -> st' = st).
Proof.
  intros Hwf Hc Hsmall. rewrite zero_allocate_spec.
  pose proof (wrap_range (elements * element_size)) as [Hge Hlt].
  set (total := wrap (elements * element_size)) in *.
  destruct (allocate_memory_small st l total Hwf Hc Hge Hsmall)
    as (ptr & st1 & Halloc & Hwf1 & Hnull & _).
  rewrite Halloc.
  destruct (Z.eqb_spec ptr NULL) as [Hp|Hp].
  - exists ptr, st1. split; [done|]. split; [done|]. intros _.
    subst ptr. by eapply allocate_memory_failure_same.
  - destruct (Z.ltb_spec 0 total) as [Hpos|Hzero].
    + rewrite (allocate_memory_mapped _ _ _ _ Hwf (conj Hpos Hlt) Halloc Hp).
      eexists _, _. split; [done|]. split; [done|]. done.
    + eexists _, _. split; [done|]. split; [done|]. done.
Qed.


(** ** The further properties at work *)


(** A hundred bytes, then fifty. *)
Lemma simple_malloc_contiguous_witness :
  4096 <= 4096 /\ 4196 = 4096 + 100 /\
  brk (Heap 4096 8192 4246 NULL ∅ ∅) = 4196 + 50 /\
  brk (Heap 4096 8192 4246 NULL ∅ ∅) <= 8192.
Proof.
  apply (simple_malloc_contiguous
           (empty_heap 4096 8192) (Heap 4096 8192 4196 NULL ∅ ∅)
           (Heap 4096 8192 4246 NULL ∅ ∅) 100 50 4096 4196).
  - limits_by_evaluation.
  - by vm_compute.
  - by vm_compute.
  - vm_compute. reflexivity.
  - by vm_compute.
  - vm_compute. reflexivity.
  - by vm_compute.
Defined.

(** [simple_malloc(2^64 - 100)] with the break at 5000 lowers it to
    4900. *)
Lemma simple_malloc_huge_size_lowers_break_witness :
  exists st',
    simple_malloc (SIZE_MOD - 100) (Heap 4096 8192 5000 NULL ∅ ∅) = Done 5000 st' /\
    5000 <> NULL /\
    brk st' = 5000 - (SIZE_MOD - (SIZE_MOD - 100)) /\ brk st' < 5000.
Proof.
  apply (simple_malloc_huge_size_lowers_break
           (Heap 4096 8192 5000 NULL ∅ ∅) (SIZE_MOD - 100)).
  - limits_by_evaluation.
  - by vm_compute.
  - by vm_compute.
Defined.

(** A hundred bytes from [simple_malloc] on top of [demo_heap]. *)
Lemma simple_malloc_apart_from_blocks_witness :
  heap_wf (set_brk 4274 demo_heap) /\
  forall size q st2,
    0 < size -> allocate_memory size (set_brk 4274 demo_heap) = Done q st2 -> q <> NULL ->
    exists b,
      blocks st2 !! retrieve_block_ptr q = Some b /\
      (q + blk_size b <= 4174 \/ 4174 + 100 <= retrieve_block_ptr q).
Proof.
  apply (simple_malloc_apart_from_blocks demo_heap (set_brk 4274 demo_heap) 100 4174).
  - apply two_blocks_wf; try (by vm_compute).
    exists [4096; 4130]. two_blocks_chain.
  - by vm_compute.
  - vm_compute. reflexivity.
  - by vm_compute.
Defined.

(** Sixteen more bytes after the two blocks of [busy_heap]. *)
Lemma extend_memory_appends_witness :
  exists st',
    extend_memory 4130 16 (busy_heap 8192) = Done 4174 st' /\
    chain (blocks st') 4096 [4096; 4130; 4174] /\
    blocks st' !! 4174 = Some (MemBlock 16 NULL 0 TAG_EXTENDED).
Proof.
  destruct (extend_memory_appends (busy_heap 8192) [4096; 4130] 4130 16)
    as [_ Hgrow].
  - apply two_blocks_wf; try (by vm_compute).
    exists [4096; 4130]. two_blocks_chain.
  - two_blocks_chain.
  - reflexivity.
  - lia.
  - by vm_compute.
  - destruct Hgrow as (st' & Hrun & _ & _ & Hchain & Hnew & _); [by vm_compute|].
    exists st'. split; [exact Hrun|]. split; [exact Hchain|exact Hnew].
Defined.

(** No room left in [busy_heap 4174]: the heap after the failed call is the
    heap before it. *)
Lemma allocate_memory_failure_unchanged_witness :
  allocate_memory 15 (busy_heap 4174) = Done NULL (busy_heap 4174) /\
  busy_heap 4174 = busy_heap 4174.
Proof.
  assert (allocate_memory 15 (busy_heap 4174) = Done NULL (busy_heap 4174)) as Hfail
    by (vm_compute; reflexivity).
  split; [exact Hfail|].
  apply (allocate_memory_failure_unchanged (busy_heap 4174) (busy_heap 4174) 15).
  - apply two_blocks_wf; try (by vm_compute).
    exists [4096; 4130]. two_blocks_chain.
  - exact Hfail.
Defined.

(** Ten bytes in a fresh process, released and asked for again. *)
Lemma allocate_release_allocate_witness :
  exists st2 st3 b,
    release_memory 4120
      (Heap 4096 8192 4130 4096 {[4096 := MemBlock 10 NULL 0 TAG_EXTENDED]} ∅)
      = Done tt st2 /\
    allocate_memory 10 st2 = Done 4120 st3 /\
    blocks st3 !! retrieve_block_ptr 4120 = Some b /\
    blk_free b = 0 /\ blk_debug_flag b = TAG_REUSED.
Proof.
  apply (allocate_release_allocate (empty_heap 4096 8192) _ 10 4120).
  - apply empty_heap_wf; by vm_compute.
  - by vm_compute.
  - vm_compute. reflexivity.
  - by vm_compute.
Defined.

(** Releasing the first block of [busy_heap] twice. *)
Lemma release_memory_twice_aborts_witness :
  exists st1,
    release_memory 4120 (busy_heap 8192) = Done tt st1 /\
    release_memory 4120 st1 = AssertFail.
Proof.
  apply (release_memory_twice_aborts
           (busy_heap 8192) 4120 (MemBlock 10 4130 0 TAG_EXTENDED)).
  - by vm_compute.
  - by vm_compute.
  - reflexivity.
  - left. reflexivity.
Defined.

(** The first block of [busy_heap], released and reused: the two bytes
    written at 4120 are still there. *)
Lemma release_allocate_keeps_bytes_witness :
  exists st1 st2,
    release_memory 4120 (busy_heap 8192) = Done tt st1 /\
    allocate_memory 8 st1 = Done 4120 st2 /\
    heap_wf st1 /\ heap_wf st2 /\
    bytes st1 = bytes (busy_heap 8192) /\ bytes st2 = bytes (busy_heap 8192).
Proof.
  eexists. eexists.
  split; [vm_compute; reflexivity|]. split; [vm_compute; reflexivity|].
  eapply (release_allocate_keeps_bytes (busy_heap 8192) _ _ 4120 8 4120).
  - apply two_blocks_wf; try (by vm_compute).
    exists [4096; 4130]. two_blocks_chain.
  - by vm_compute.
  - vm_compute. reflexivity.
  - vm_compute. reflexivity.
Defined.

(** Growing the first block of [busy_heap] to 15 bytes, then releasing the
    old pointer. *)
Lemma reallocate_memory_then_release_old_aborts_witness :
  exists st',
    reallocate_memory 4120 15 (busy_heap 8192) = Done 4198 st' /\
    release_memory 4120 st' = AssertFail.
Proof.
  eapply (reallocate_memory_then_release_old_aborts
            (busy_heap 8192) _ [4096; 4130] 4120 15 4198
            (MemBlock 10 4130 0 TAG_EXTENDED)).
  - apply two_blocks_wf; try (by vm_compute).
    exists [4096; 4130]. two_blocks_chain.
  - two_blocks_chain.
  - by vm_compute.
  - by vm_compute.
  - reflexivity.
  - left. reflexivity.
  - simpl. lia.
  - vm_compute. reflexivity.
  - by vm_compute.
Defined.

(** The same call leaves the payloads of both blocks of [busy_heap] as
    they were. *)
Lemma reallocate_memory_leaves_payloads_witness :
  exists st',
    reallocate_memory 4120 15 (busy_heap 8192) = Done 4198 st' /\
    forall q bq,
      blocks (busy_heap 8192) !! retrieve_block_ptr q = Some bq -> blk_free bq = 0 ->
      forall i, 0 <= i < blk_size bq ->
        bytes st' !! (q + i) = bytes (busy_heap 8192) !! (q + i).
Proof.
  eapply (reallocate_memory_leaves_payloads
            (busy_heap 8192) _ [4096; 4130] 4120 15 4198
            (MemBlock 10 4130 0 TAG_EXTENDED)).
  - apply two_blocks_wf; try (by vm_compute).
    exists [4096; 4130]. two_blocks_chain.
  - two_blocks_chain.
  - by vm_compute.
  - by vm_compute.
  - reflexivity.
  - left. reflexivity.
  - simpl. lia.
  - vm_compute. reflexivity.
  - by vm_compute.
Defined.

(** [zero_allocate(5, 4)] in [demo_heap] clears the free block and leaves
    the block in use alone. *)
Lemma zero_allocate_leaves_payloads_witness :
  exists st',
    zero_allocate 5 4 demo_heap = Done 4154 st' /\
    forall q bq,
      blocks demo_heap !! retrieve_block_ptr q = Some bq -> blk_free bq = 0 ->
      forall i, 0 <= i < blk_size bq ->
        bytes st' !! (q + i) = bytes demo_heap !! (q + i).
Proof.
  eexists. split; [vm_compute; reflexivity|].
  eapply (zero_allocate_leaves_payloads demo_heap _ [4096; 4130] 5 4 4154).
  - apply two_blocks_wf; try (by vm_compute).
    exists [4096; 4130]. two_blocks_chain.
  - two_blocks_chain.
  - vm_compute. reflexivity.
Defined.

(** A program on [busy_heap]: a request that extends the heap, a release
    of the first block, and a reallocation that moves the second.  The two
    blocks the program started with are still at 4096 and 4130, with their
    10 and 20 bytes. *)
Lemma run_keeps_blocks_witness :
  exists live' st',
    run [Allocate 16; Release 4120; Reallocate 4154 30] {[4120; 4154]} (busy_heap 8192)
      = Done live' st' /\
    4174 <= brk st' /\
    (exists b', blocks st' !! 4096 = Some b' /\ blk_size b' = 10) /\
    (exists b', blocks st' !! 4130 = Some b' /\ blk_size b' = 20).
Proof.
  destruct (run [Allocate 16; Release 4120; Reallocate 4154 30] {[4120; 4154]}
                (busy_heap 8192)) as [live' st'| | |] eqn:Hrun;
    try (by vm_compute in Hrun).
  destruct (run_keeps_blocks
              [Allocate 16; Release 4120; Reallocate 4154 30]
              (busy_heap 8192) st' {[4120; 4154]} live')
    as (_ & _ & Hbrk & Hblk).
  - apply two_blocks_wf; try (by vm_compute).
    exists [4096; 4130]. two_blocks_chain.
  - intros p [->%elem_of_singleton| ->%elem_of_singleton]%elem_of_union;
      (eexists; split; [by vm_compute|]; split; [reflexivity|]).
    + left. reflexivity.
    + right. reflexivity.
  - repeat constructor; by vm_compute.
  - exact Hrun.
  - exists live', st'. split; [reflexivity|]. split; [exact Hbrk|]. split.
    + apply (Hblk 4096 (MemBlock 10 4130 0 TAG_EXTENDED)). reflexivity.
    + apply (Hblk 4130 (MemBlock 20 NULL 0 TAG_REUSED)). reflexivity.
Defined.

(** The same program appends two blocks to the list of [busy_heap], at
    4174 and at 4214. *)
Lemma run_appends_only_witness :
  exists live' st' l',
    run [Allocate 16; Release 4120; Reallocate 4154 30] {[4120; 4154]} (busy_heap 8192)
      = Done live' st' /\
    l' = [4174; 4214] /\
    chain (blocks st') (base st') ([4096; 4130] ++ l') /\
    dom (blocks st') = dom (blocks (busy_heap 8192)) ∪ list_to_set l' /\
    Forall (fun x => blocks (busy_heap 8192) !! x = None /\ 4174 <= x < brk st') l' /\
    StronglySorted Z.lt l' /\
    base st' = 4096.
Proof.
  destruct (run [Allocate 16; Release 4120; Reallocate 4154 30] {[4120; 4154]}
                (busy_heap 8192)) as [live' st'| | |] eqn:Hrun;
    try (by vm_compute in Hrun).
  destruct (run_appends_only
              [Allocate 16; Release 4120; Reallocate 4154 30]
              (busy_heap 8192) st' {[4120; 4154]} live' [4096; 4130])
    as [(l' & Hchain & Hdom & Hnew & Hsort) Hbase].
  - apply two_blocks_wf; try (by vm_compute).
    exists [4096; 4130]. two_blocks_chain.
  - intros p [->%elem_of_singleton| ->%elem_of_singleton]%elem_of_union;
      (eexists; split; [by vm_compute|]; split; [reflexivity|]).
    + left. reflexivity.
    + right. reflexivity.
  - repeat constructor; by vm_compute.
  - two_blocks_chain.
  - exact Hrun.
  - exists live', st', l'. split; [reflexivity|].
    split; [|split; [exact Hchain|split; [exact Hdom|split; [exact Hnew|split; [exact Hsort|]]]]].
    + assert (chain (blocks st') (base st') ([4096; 4130] ++ [4174; 4214])) as Hfull.
      { vm_compute in Hrun. injection Hrun as _ <-. chain_by_evaluation. }
      pose proof (chain_deterministic _ _ _ _ _ eq_refl Hchain Hfull) as Heq.
      by apply app_inv_head in Heq.
    + apply Hbase. by vm_compute.
Defined.


(** [zero_allocate(2^32, 2^32)]: the product is [2^64], the total is zero,
    and the call fails without touching [demo_heap]. *)
Lemma zero_allocate_failure_witness :
  exists st', zero_allocate (2 ^ 32) (2 ^ 32) demo_heap = Done NULL st' /\ st' = demo_heap.
Proof.
  destruct (zero_allocate_failure demo_heap [4096; 4130] (2 ^ 32) (2 ^ 32))
    as (ptr & st' & Hrun & Hnull & Hsame).
  - apply two_blocks_wf; try (by vm_compute).
    exists [4096; 4130]. two_blocks_chain.
  - two_blocks_chain.
  - by vm_compute.
  - assert (ptr = NULL) as Hptr by (apply Hnull; left; by vm_compute).
    exists st'. rewrite <- Hptr. split; [exact Hrun|exact (Hsame Hptr)].
Defined.

